(** * Minesweeper: the knowledge-based agent of [minesweeper.py]

    A shallow embedding of the classes [Sentence] and [MinesweeperAI]
    and of the oracle function [Minesweeper.nearby_mines], followed by
    the properties of the inference engine.

    Python sets of cells are [gset (Z * Z)]; the list [knowledge] is a
    [list Sentence]; methods that read or assign attributes of [self]
    are computations of a small state-and-exception monad over the
    object they are called on.  The exceptions that a statement of the
    modelled code can raise are the [KeyError] of [set.remove] and the
    [IndexError] of indexing a list. *)

From stdpp Require Import base numbers list gmap fin_sets.

Local Open Scope Z_scope.

(** ** Results, and the monad of methods *)

Inductive exn : Set := KeyError | IndexError.

Inductive result (A : Type) : Type :=
| Ok (a : A)
| Raise (e : exn)
| OutOfFuel.
Arguments Ok {A} a.
Arguments Raise {A} e.
Arguments OutOfFuel {A}.

(** A method of an object of type [St] returning an [A]. *)
Definition M (St A : Type) : Type := St → result (A * St).

Definition ret {St A : Type} (a : A) : M St A := λ s, Ok (a, s).

Definition bind {St A B : Type} (m : M St A) (k : A → M St B) : M St B :=
  λ s, match m s with
       | Ok (a, s') => k a s'
       | Raise e => Raise e
       | OutOfFuel => OutOfFuel
       end.

Definition get {St : Type} : M St St := λ s, Ok (s, s).
Definition put {St : Type} (s : St) : M St unit := λ _, Ok (tt, s).
Definition raise {St A : Type} (e : exn) : M St A := λ _, Raise e.
Definition diverge {St A : Type} : M St A := λ _, OutOfFuel.

Notation "'let*' x ':=' m 'in' k" := (bind m (λ x, k))
  (at level 10, x pattern, m at level 100, k at level 200).
Notation "m '>>' k" := (bind m (λ _, k))
  (at level 61, k at level 200, right associativity).

(** [for x in l: body x], over a list that the body does not change. *)
Fixpoint for_each {St A : Type} (l : list A) (body : A → M St unit) : M St unit :=
  match l with
  | [] => ret tt
  | x :: l' => body x >> for_each l' body
  end.

(** [for x in l: acc = body acc x], the accumulator standing for the
    local variables that the loop assigns. *)
Fixpoint for_acc {St A B : Type} (l : list A) (body : B → A → M St B) (acc : B)
    : M St B :=
  match l with
  | [] => ret acc
  | x :: l' => let* acc' := body acc x in for_acc l' body acc'
  end.

(** ** Cells and sets of cells *)

Abbreviation Cell := (Z * Z)%type.

(** The order in which Python enumerates a set is not fixed by the
    language; every enumeration lists each member once. *)
Class SetOrder : Type := {
  iter_set : gset Cell → list Cell;
  iter_set_perm : ∀ X, iter_set X ≡ₚ elements X
}.

#[export] Instance elements_order : SetOrder :=
  {| iter_set := elements; iter_set_perm := λ X, reflexivity (elements X) |}.

(** [X.remove(c)]: raises [KeyError] when [c] is not a member. *)
Definition set_remove {St : Type} (c : Cell) (X : gset Cell) : M St (gset Cell) :=
  if decide (c ∈ X) then ret (X ∖ {[c]}) else raise KeyError.

(** [l[i]]: a negative index counts from the end; [IndexError] outside. *)
Definition list_get {St A : Type} (l : list A) (i : Z) : M St A :=
  let i' := if decide (i < 0) then i + Z.of_nat (length l) else i in
  match (if decide (0 ≤ i') then l !! Z.to_nat i' else None) with
  | Some x => ret x
  | None => raise IndexError
  end.

(** [(i, j)] for [i in range(cell[0]-1, cell[0]+2)] and
    [j in range(cell[1]-1, cell[1]+2)], in the order of the two loops. *)
Definition block (cell : Cell) : list Cell :=
  i ← seqZ (cell.1 - 1) 3; j ← seqZ (cell.2 - 1) 3; [(i, j)].
Arguments block : simpl never.

(** [0 <= i < h and 0 <= j < w] *)
Definition in_bounds (h w : Z) (c : Cell) : Prop :=
  (0 ≤ c.1 ∧ c.1 < h) ∧ (0 ≤ c.2 ∧ c.2 < w).

#[export] Instance in_bounds_dec h w c : Decision (in_bounds h w c).
Proof. unfold in_bounds. apply _. Defined.

(** ** class Minesweeper: the board that reports the counts *)

Module Minesweeper.

Record game : Type := mkGame {
  height : Z;
  width : Z;
  mines : gset Cell;
  board : list (list bool);
  mines_found : gset Cell
}.

Definition is_mine (cell : Cell) : M game bool :=
  let '(i, j) := cell in
  let* self := get in
  let* row := list_get (board self) i in
  list_get row j.

Definition nearby_mines (cell : Cell) : M game Z :=
  let count := 0 in
  let* self := get in
  for_acc (block cell)
    (λ count c,
       if decide (c = cell) then ret count
       else if decide (in_bounds (height self) (width self) c) then
         let* row := list_get (board self) c.1 in
         let* is_set := list_get row c.2 in
         if is_set : bool then ret (count + 1) else ret count
       else ret count)
    count.

End Minesweeper.

(** ** class Sentence *)

Record Sentence : Type := mkSentence { cells : gset Cell; count : Z }.

(** [Sentence.__eq__] compares both attributes, so [==] is equality of
    records, and [!=] (not overridden) is its negation. *)
#[export] Instance Sentence_eq_dec : EqDecision Sentence.
Proof. solve_decision. Defined.

(** [Sentence.__init__]: [set(cells)] is a fresh copy. *)
Definition Sentence_init (cs : gset Cell) (n : Z) : Sentence :=
  {| cells := cs; count := n |}.

Section WithOrder.
Context `{SetOrder}.

Definition known_mines : M Sentence (gset Cell) :=
  let mines := ∅ in
  let* self := get in
  if decide (Z.of_nat (size (cells self)) = count self ∧ count self ≠ 0)
  then ret (foldl (λ mines cell, mines ∪ {[cell]}) mines (iter_set (cells self)))
  else ret mines.

Definition known_safes : M Sentence (gset Cell) :=
  let safes := ∅ in
  let* self := get in
  if decide (count self = 0)
  then ret (foldl (λ safes cell, safes ∪ {[cell]}) safes (iter_set (cells self)))
  else ret safes.

Definition Sentence_mark_mine (cell : Cell) : M Sentence unit :=
  let* self := get in
  if decide (cell ∈ cells self) then
    let* cs := set_remove cell (cells self) in
    put {| cells := cs; count := count self |} >>
    let* self := get in
    put {| cells := cells self; count := count self - 1 |}
  else ret tt.

Definition Sentence_mark_safe (cell : Cell) : M Sentence unit :=
  let* self := get in
  if decide (cell ∈ cells self) then
    let* cs := set_remove cell (cells self) in
    put {| cells := cs; count := count self |}
  else ret tt.

(** ** class MinesweeperAI *)

Record AI : Type := mkAI {
  height : Z;
  width : Z;
  moves_made : gset Cell;
  mines : gset Cell;
  safes : gset Cell;
  knowledge : list Sentence
}.

Definition AI_init (h w : Z) : AI :=
  {| height := h; width := w; moves_made := ∅; mines := ∅; safes := ∅;
     knowledge := [] |}.

Definition set_moves_made (X : gset Cell) : M AI unit :=
  λ self, Ok (tt, {| height := height self; width := width self;
                     moves_made := X; mines := mines self;
                     safes := safes self; knowledge := knowledge self |}).

Definition set_mines (X : gset Cell) : M AI unit :=
  λ self, Ok (tt, {| height := height self; width := width self;
                     moves_made := moves_made self; mines := X;
                     safes := safes self; knowledge := knowledge self |}).

Definition set_safes (X : gset Cell) : M AI unit :=
  λ self, Ok (tt, {| height := height self; width := width self;
                     moves_made := moves_made self; mines := mines self;
                     safes := X; knowledge := knowledge self |}).

Definition set_knowledge (k : list Sentence) : M AI unit :=
  λ self, Ok (tt, {| height := height self; width := width self;
                     moves_made := moves_made self; mines := mines self;
                     safes := safes self; knowledge := k |}).

(** [for sentence in k: acc = body acc], where the body is a method
    called on [sentence]: the sentence objects of the list are updated
    in place, the local variables of the loop are the accumulator. *)
Fixpoint for_sentences {A : Type} (body : A → M Sentence A) (acc : A)
    : M (list Sentence) A :=
  λ k, match k with
       | [] => Ok (acc, [])
       | s :: k' =>
           match body acc s with
           | Ok (acc', s') =>
               match for_sentences body acc' k' with
               | Ok (r, k'') => Ok (r, s' :: k'')
               | Raise e => Raise e
               | OutOfFuel => OutOfFuel
               end
           | Raise e => Raise e
           | OutOfFuel => OutOfFuel
           end
       end.

(** [for sentence in self.knowledge: ...] *)
Definition for_knowledge {A : Type} (body : A → M Sentence A) (acc : A)
    : M AI A :=
  let* self := get in
  match for_sentences body acc (knowledge self) with
  | Ok (r, k) => set_knowledge k >> ret r
  | Raise e => raise e
  | OutOfFuel => diverge
  end.

Definition mark_mine (cell : Cell) : M AI unit :=
  let* self := get in
  set_mines (mines self ∪ {[cell]}) >>
  for_knowledge (λ _, Sentence_mark_mine cell) tt.

Definition mark_safe (cell : Cell) : M AI unit :=
  let* self := get in
  set_safes (safes self ∪ {[cell]}) >>
  for_knowledge (λ _, Sentence_mark_safe cell) tt.

(** One pass of the body of the double loop of step 3. *)
Definition look_at (self : AI) (acc : gset Cell * Z) (c : Cell)
    : gset Cell * Z :=
  let '(unexplored_neighbours, mine_count) := acc in
  let mine_count :=
    if decide (c ∈ mines self) then mine_count + 1 else mine_count in
  let unexplored_neighbours :=
    if decide (in_bounds (height self) (width self) c) then
      if decide ((c ∉ safes self) ∧ (c ∉ mines self))
      then unexplored_neighbours ∪ {[c]}
      else unexplored_neighbours
    else unexplored_neighbours in
  (unexplored_neighbours, mine_count).

(** Steps 1 to 3 of [add_knowledge]: everything before [while True]. *)
Definition add_sentence (cell : Cell) (count : Z) : M AI unit :=
  let* self := get in
  set_moves_made (moves_made self ∪ {[cell]}) >>
  mark_safe cell >>
  let* self := get in
  let '(unexplored_neighbours, mine_count) :=
    foldl (look_at self) (∅, 0) (block cell) in
  let new_sentence := Sentence_init unexplored_neighbours (count - mine_count) in
  set_knowledge (knowledge self ++ [new_sentence]).

(** The first [for] of the loop body: the union of what each sentence
    knows. *)
Definition collect_known : M AI (gset Cell * gset Cell) :=
  for_knowledge
    (λ '(new_safes, new_mines),
       let* ks := known_safes in
       let new_safes := new_safes ∪ ks in
       let* km := known_mines in
       let new_mines := new_mines ∪ km in
       ret (new_safes, new_mines))
    (∅, ∅).

(** The double [for] of step 5: the list [new_knowledge]. *)
Definition infer (k : list Sentence) : list Sentence :=
  sentence1 ← k;
  sentence2 ← k;
  if decide (sentence1 ≠ sentence2 ∧ cells sentence2 ⊆ cells sentence1) then
    let inferred_sentence :=
      Sentence_init (cells sentence1 ∖ cells sentence2)
                    (count sentence1 - count sentence2) in
    if decide (inferred_sentence ∉ k) then [inferred_sentence] else []
  else [].

(** The body of [while True] after the [break] test. *)
Definition resolve_and_infer (new_safes new_mines : gset Cell) : M AI unit :=
  for_each (iter_set new_safes) mark_safe >>
  for_each (iter_set new_mines) mark_mine >>
  let* self := get in
  let new_knowledge := infer (knowledge self) in
  set_knowledge (knowledge self ++ new_knowledge).

(** [while True]: [fuel] bounds the number of rounds; running out of it
    stands for a loop that has not exited yet. *)
Fixpoint closure (fuel : nat) : M AI unit :=
  match fuel with
  | O => diverge
  | S fuel' =>
      let* (new_safes, new_mines) := collect_known in
      if decide (new_safes = ∅ ∧ new_mines = ∅) then ret tt
      else resolve_and_infer new_safes new_mines >> closure fuel'
  end.

Definition add_knowledge (fuel : nat) (cell : Cell) (count : Z) : M AI unit :=
  add_sentence cell count >> closure fuel.

(** [for cell in self.safes]: the first cell that is not a move made. *)
Fixpoint first_not_made (made : gset Cell) (l : list Cell) : option Cell :=
  match l with
  | [] => None
  | cell :: l' =>
      if decide (cell ∈ made) then first_not_made made l' else Some cell
  end.

Definition make_safe_move : M AI (option Cell) :=
  let* self := get in
  ret (first_not_made (moves_made self) (iter_set (safes self))).

End WithOrder.

(** ** MinesweeperAI.make_random_move *)

(** [random.choice(l)]: [IndexError] on an empty list; otherwise the
    element at the drawn position, [r] being the draw. *)
Definition random_choice {St A : Type} (r : nat) (l : list A) : M St A :=
  match l !! (r mod length l)%nat with
  | Some x => ret x
  | None => raise IndexError
  end.

(** One pass of the body of the double loop of [make_random_move]. *)
Definition consider (self : AI) (i : Z) (possibleMoves : list Cell) (j : Z)
    : list Cell :=
  if decide (((i, j) ∉ mines self) ∧ ((i, j) ∉ moves_made self))
  then possibleMoves ++ [(i, j)] else possibleMoves.

Definition make_random_move (r : nat) : M AI (option Cell) :=
  let* self := get in
  let possibleMoves :=
    foldl (λ possibleMoves i,
             foldl (consider self i) possibleMoves (seqZ 0 (width self)))
          [] (seqZ 0 (height self)) in
  if decide (length possibleMoves = 0%nat) then ret None
  else let* cell := random_choice r possibleMoves in ret (Some cell).

(** ** Minesweeper.__init__ *)

(** What the constructor comes to.  The draws of [random.randrange] are
    given as a list of pairs of naturals, one pair for each turn of the
    [while] loop. *)
Inductive init_result : Type :=
| Built (g : Minesweeper.game)
| RaisedValueError
| RaisedIndexError
| NeedsDraws.

(** [random.randrange(n)]: [ValueError] ([None]) when [n <= 0];
    otherwise the number below [n] that the draw [r] selects. *)
Definition randrange (n : Z) (r : nat) : option Z :=
  if decide (0 < n) then Some (Z.of_nat r `mod` n) else None.

(** The two [for] loops that fill the board with [False]. *)
Definition empty_board (height width : Z) : list (list bool) :=
  foldl (λ board _,
           let row := foldl (λ row _, row ++ [false]) [] (seqZ 0 width) in
           board ++ [row])
        [] (seqZ 0 height).

(** [while len(self.mines) != mines: ...] *)
Fixpoint place_mines (mines : Z) (draws : list (nat * nat))
    (self : Minesweeper.game) : init_result :=
  if decide (Z.of_nat (size (Minesweeper.mines self)) = mines)
  then Built self
  else
    match draws with
    | [] => NeedsDraws
    | (r1, r2) :: draws' =>
        match randrange (Minesweeper.height self) r1 with
        | None => RaisedValueError
        | Some i =>
            match randrange (Minesweeper.width self) r2 with
            | None => RaisedValueError
            | Some j =>
                match (let* row := list_get (Minesweeper.board self) i in
                       let* is_set := list_get row j in
                       ret (row, is_set)) tt with
                | Ok ((row, is_set), _) =>
                    if is_set : bool then place_mines mines draws' self
                    else
                      place_mines mines draws'
                        {| Minesweeper.height := Minesweeper.height self;
                           Minesweeper.width := Minesweeper.width self;
                           Minesweeper.mines := Minesweeper.mines self ∪ {[(i, j)]};
                           Minesweeper.board :=
                             <[Z.to_nat i := <[Z.to_nat j := true]> row]>
                               (Minesweeper.board self);
                           Minesweeper.mines_found :=
                             Minesweeper.mines_found self |}
                | _ => RaisedIndexError
                end
            end
        end
    end.

Definition Minesweeper_init (height width mines : Z) (draws : list (nat * nat))
    : init_result :=
  place_mines mines draws
    {| Minesweeper.height := height; Minesweeper.width := width;
       Minesweeper.mines := ∅;
       Minesweeper.board := empty_board height width;
       Minesweeper.mines_found := ∅ |}.

(** ** Minesweeper.won *)

Definition Minesweeper_won : M Minesweeper.game bool :=
  let* self := get in
  ret (bool_decide (Minesweeper.mines_found self = Minesweeper.mines self)).

(** * The vocabulary of the properties *)

(** ** What the methods compute

    The closed forms of the methods: the sentence or the state that a
    call returns. *)

Definition without_mine (c : Cell) (s : Sentence) : Sentence :=
  if decide (c ∈ cells s)
  then {| cells := cells s ∖ {[c]}; count := count s - 1 |} else s.

Definition without_safe (c : Cell) (s : Sentence) : Sentence :=
  if decide (c ∈ cells s)
  then {| cells := cells s ∖ {[c]}; count := count s |} else s.

Definition mines_of (s : Sentence) : gset Cell :=
  if decide (Z.of_nat (size (cells s)) = count s ∧ count s ≠ 0)
  then cells s else ∅.

Definition safes_of (s : Sentence) : gset Cell :=
  if decide (count s = 0) then cells s else ∅.

Definition with_mine (c : Cell) (st : AI) : AI :=
  {| height := height st; width := width st; moves_made := moves_made st;
     mines := mines st ∪ {[c]}; safes := safes st;
     knowledge := without_mine c <$> knowledge st |}.

Definition with_safe (c : Cell) (st : AI) : AI :=
  {| height := height st; width := width st; moves_made := moves_made st;
     mines := mines st; safes := safes st ∪ {[c]};
     knowledge := without_safe c <$> knowledge st |}.

Definition with_knowledge (k : list Sentence) (st : AI) : AI :=
  {| height := height st; width := width st; moves_made := moves_made st;
     mines := mines st; safes := safes st; knowledge := k |}.

Definition all_safes (k : list Sentence) : gset Cell := ⋃ (safes_of <$> k).
Definition all_mines (k : list Sentence) : gset Cell := ⋃ (mines_of <$> k).

(** The state after steps 1 to 3. *)
Definition observed (cell : Cell) (n : Z) (st : AI) : AI :=
  let st1 :=
    with_safe cell
      {| height := height st; width := width st;
         moves_made := moves_made st ∪ {[cell]}; mines := mines st;
         safes := safes st; knowledge := knowledge st |} in
  let r := foldl (look_at st1) (∅, 0) (block cell) in
  with_knowledge (knowledge st1 ++ [Sentence_init r.1 (n - r.2)]) st1.

Definition settled (st : AI) : Prop :=
  all_safes (knowledge st) = ∅ ∧ all_mines (knowledge st) = ∅.

#[export] Instance settled_dec st : Decision (settled st).
Proof. unfold settled. apply _. Defined.

(** ** Invariants of the knowledge base *)

Definition cells_in (k : list Sentence) : gset Cell := ⋃ (cells <$> k).

Definition clean (st : AI) : Prop :=
  ∀ s c, s ∈ knowledge st → c ∈ cells s → (c ∉ mines st) ∧ (c ∉ safes st).

(** A cell that the new sentence may contain. *)
Definition undetermined (st : AI) (c : Cell) : Prop :=
  in_bounds (height st) (width st) c ∧ (c ∉ safes st) ∧ (c ∉ mines st).

#[export] Instance undetermined_dec st c : Decision (undetermined st c).
Proof. unfold undetermined. apply _. Defined.

(** [k'] holds, at every position of [k], the sentence that [k] holds
    there, with the same cells or fewer. *)
Definition kept (k k' : list Sentence) : Prop :=
  ∀ i s, k !! i = Some s → ∃ s', k' !! i = Some s' ∧ cells s' ⊆ cells s.

(** ** The board and what is true of it *)

(** The cell holds a mine of the board [g]. *)
Definition mine_at (g : Minesweeper.game) (c : Cell) : bool :=
  match Minesweeper.board g !! Z.to_nat c.1 with
  | Some row => default false (row !! Z.to_nat c.2)
  | None => false
  end.

Definition real_mine (g : Minesweeper.game) (c : Cell) : Prop :=
  in_bounds (Minesweeper.height g) (Minesweeper.width g) c ∧ mine_at g c = true.

#[export] Instance real_mine_dec g c : Decision (real_mine g c).
Proof. unfold real_mine. apply _. Defined.

(** ** Rounds of the loop, and sequences of calls *)

Section Rounds.
Context `{SetOrder}.

(** The state after one round that did not [break]. *)
Definition resolved (st : AI) : AI :=
  let new_safes := all_safes (knowledge st) in
  let new_mines := all_mines (knowledge st) in
  foldl (λ st c, with_mine c st)
        (foldl (λ st c, with_safe c st) st (iter_set new_safes))
        (iter_set new_mines).

Definition round (st : AI) : AI :=
  let st' := resolved st in
  with_knowledge (knowledge st' ++ infer (knowledge st')) st'.

(** The states of an agent created for an [h] by [w] board, after any
    number of calls of [add_knowledge] that returned. *)
Inductive reachable (h w : Z) : AI → Prop :=
| reach_init : reachable h w (AI_init h w)
| reach_add st fuel cell n st' :
    reachable h w st →
    add_knowledge fuel cell n st = Ok (tt, st') →
    reachable h w st'.

(** The states of an agent that is told, cell after cell, what the
    board [g] reports for cells that hold no mine. *)
Inductive played (g : Minesweeper.game) : AI → Prop :=
| played_init :
    played g (AI_init (Minesweeper.height g) (Minesweeper.width g))
| played_add st fuel cell n st' :
    played g st →
    Minesweeper.is_mine cell g = Ok (false, g) →
    Minesweeper.nearby_mines cell g = Ok (n, g) →
    add_knowledge fuel cell n st = Ok (tt, st') →
    played g st'.

End Rounds.

(** ** Soundness

    [P] says which cells hold a mine.  A sentence is true when its count
    is the number of its cells that hold a mine; a state is sound when
    its mines are mines, its safes are not, and its sentences are true. *)

Section Truth.
Context (P : Cell → Prop) `{!∀ c, Decision (P c)}.

Definition true_of (s : Sentence) : Prop :=
  count s = Z.of_nat (size (filter P (cells s))).

Definition sound (st : AI) : Prop :=
  (∀ c, c ∈ mines st → P c)
  ∧ (∀ c, c ∈ safes st → ¬ P c)
  ∧ (∀ s, s ∈ knowledge st → true_of s).

End Truth.

(** The agent's view of a game on [g]: sound for the mines of [g], on a
    board of the size of [g]. *)
Definition agrees (g : Minesweeper.game) (st : AI) : Prop :=
  (height st = Minesweeper.height g ∧ width st = Minesweeper.width g)
  ∧ sound (real_mine g) st.

(** ** Boards and states of the examples *)

(** A board of two rows and two columns with one mine, at [(0, 0)]. *)
Definition board_2x2 : Minesweeper.game :=
  {| Minesweeper.height := 2; Minesweeper.width := 2;
     Minesweeper.mines := {[ (0, 0) ]};
     Minesweeper.board := [[true; false]; [false; false]];
     Minesweeper.mines_found := ∅ |}.

(** The agent after [add_knowledge((1, 1), 1)] on that board. *)
Definition after_one_report : AI :=
  {| height := 2; width := 2;
     moves_made := {[ (1, 1) ]};
     mines := ∅;
     safes := {[ (1, 1) ]};
     knowledge := [ {| cells := {[ (0, 0); (0, 1); (1, 0) ]}; count := 1 |} ] |}.

(** The agent after [add_knowledge((0, 1), 1)] next. *)
Definition after_two_reports : AI :=
  {| height := 2; width := 2;
     moves_made := {[ (1, 1); (0, 1) ]};
     mines := ∅;
     safes := {[ (1, 1); (0, 1) ]};
     knowledge := [ {| cells := {[ (0, 0); (1, 0) ]}; count := 1 |};
                    {| cells := {[ (0, 0); (1, 0) ]}; count := 1 |} ] |}.

(** The agent for one row and two columns after
    [add_knowledge((0, 0), 1)]. *)
Definition after_first_report_1x2 : AI :=
  {| height := 1; width := 2; moves_made := {[ (0, 0) ]};
     mines := {[ (0, 1) ]}; safes := {[ (0, 0) ]};
     knowledge := [ {| cells := ∅; count := 0 |} ] |}.

(** A board of two rows and three columns with one mine, at [(0, 0)]. *)
Definition board_2x3 : Minesweeper.game :=
  {| Minesweeper.height := 2; Minesweeper.width := 3;
     Minesweeper.mines := {[ (0, 0) ]};
     Minesweeper.board := [[true; false; false]; [false; false; false]];
     Minesweeper.mines_found := ∅ |}.

(** The agent after [add_knowledge((1, 1), 1)] on that board, and
    after [add_knowledge((1, 0), 1)] next. *)
Definition after_centre_2x3 : AI :=
  {| height := 2; width := 3;
     moves_made := {[ (1, 1) ]}; mines := ∅; safes := {[ (1, 1) ]};
     knowledge :=
       [ {| cells := {[ (0, 0); (0, 1); (0, 2); (1, 0); (1, 2) ]}; count := 1 |} ] |}.

Definition after_corner_2x3 : AI :=
  {| height := 2; width := 3;
     moves_made := {[ (1, 1); (1, 0) ]}; mines := ∅;
     safes := {[ (1, 1); (1, 0) ]};
     knowledge :=
       [ {| cells := {[ (0, 0); (0, 1); (0, 2); (1, 2) ]}; count := 1 |};
         {| cells := {[ (0, 0); (0, 1) ]}; count := 1 |} ] |}.

(** The two sentences of the example of the specification, alone. *)
Definition example_A : Sentence := Sentence_init {[ (0, 0); (0, 1); (0, 2) ]} 1.
Definition example_B : Sentence := Sentence_init {[ (0, 0); (0, 1) ]} 1.

Definition example_AB : AI :=
  {| height := 1; width := 3; moves_made := ∅; mines := ∅; safes := ∅;
     knowledge := [example_A; example_B] |}.

(** ** The cells of a board *)

(** All cells of a board of [h] rows and [w] columns, row by row. *)
Definition board_cells (h w : Z) : list Cell :=
  i ← seqZ 0 h; j ← seqZ 0 w; [(i, j)].

(** A cell that [make_random_move] may choose. *)
Definition possible_move (st : AI) (c : Cell) : Prop :=
  (c ∉ mines st) ∧ (c ∉ moves_made st).

#[export] Instance possible_move_dec st c : Decision (possible_move st c).
Proof. unfold possible_move. apply _. Defined.

(** What [reachable] states have in common. *)
Definition on_board (h w : Z) (st : AI) : Prop :=
  (height st = h ∧ width st = w)
  ∧ moves_made st ⊆ safes st
  ∧ (∀ c, c ∈ cells_in (knowledge st) → in_bounds h w c)
  ∧ (∀ c, c ∈ mines st → in_bounds h w c)
  ∧ (∀ c, c ∈ safes st → c ∈ moves_made st ∨ in_bounds h w c).

(** The sentence that steps 1 to 3 append. *)
Definition observation (cell : Cell) (n : Z) (st : AI) : Sentence :=
  let st1 :=
    with_safe cell
      {| height := height st; width := width st;
         moves_made := moves_made st ∪ {[cell]}; mines := mines st;
         safes := safes st; knowledge := knowledge st |} in
  let r := foldl (look_at st1) (∅, 0) (block cell) in
  Sentence_init r.1 (n - r.2).

(** The agent for two rows and two columns after
    [add_knowledge((1, 1), 0)]. *)
Definition all_safe_2x2 : AI :=
  {| height := 2; width := 2; moves_made := {[ (1, 1) ]}; mines := ∅;
     safes := {[ (0, 0); (0, 1); (1, 0); (1, 1) ]};
     knowledge := [ {| cells := ∅; count := 0 |} ] |}.

(** The agent for [board_2x3] after [add_knowledge((1, 2), 0)]. *)
Definition after_far_corner_2x3 : AI :=
  {| height := 2; width := 3; moves_made := {[ (1, 2) ]}; mines := ∅;
     safes := {[ (0, 1); (0, 2); (1, 1); (1, 2) ]};
     knowledge := [ {| cells := ∅; count := 0 |} ] |}.

(** A board as [Minesweeper.__init__] builds it: [height] rows of
    [width] entries. *)
Definition well_formed (g : Minesweeper.game) : Prop :=
  length (Minesweeper.board g) = Z.to_nat (Minesweeper.height g)
  ∧ ∀ row, row ∈ Minesweeper.board g →
           length row = Z.to_nat (Minesweeper.width g).

(** The board and the set [mines] of a game tell the same. *)
Definition consistent (g : Minesweeper.game) : Prop :=
  well_formed g ∧ ∀ c, c ∈ Minesweeper.mines g ↔ real_mine g c.

(** * Properties *)

(** ** Running the methods

    Each method is run once and for all; the later proofs reason about
    the closed forms. *)

Ltac run := unfold bind, get, put, ret, raise, diverge, set_remove,
  set_knowledge, set_mines, set_safes, set_moves_made; simpl.

Section Runs.
Context `{SetOrder}.

Lemma foldl_add_cells (X : gset Cell) (l : list Cell) :
  foldl (λ acc cell, acc ∪ {[cell]}) X l = X ∪ list_to_set l.
Proof.
  revert X. induction l as [|c l IH]; intros X; simpl.
  - set_solver.
  - rewrite IH. set_solver.
Qed.

Lemma list_to_set_iter_set (X : gset Cell) : list_to_set (iter_set X) = X.
Proof.
  apply set_eq. intros c.
  rewrite elem_of_list_to_set, (iter_set_perm X). apply elem_of_elements.
Qed.

Lemma elem_of_iter_set (X : gset Cell) c : c ∈ iter_set X ↔ c ∈ X.
Proof. rewrite (iter_set_perm X). apply elem_of_elements. Qed.

Lemma copy_cells (X : gset Cell) :
  foldl (λ acc cell, acc ∪ {[cell]}) ∅ (iter_set X) = X.
Proof. rewrite foldl_add_cells, list_to_set_iter_set. set_solver. Qed.

Lemma known_mines_run s : known_mines s = Ok (mines_of s, s).
Proof.
  unfold known_mines, mines_of. run.
  destruct (decide _); [by rewrite copy_cells | done].
Qed.

Lemma known_safes_run s : known_safes s = Ok (safes_of s, s).
Proof.
  unfold known_safes, safes_of. run.
  destruct (decide _); [by rewrite copy_cells | done].
Qed.

Lemma Sentence_mark_mine_run c s :
  Sentence_mark_mine c s = Ok (tt, without_mine c s).
Proof.
  unfold Sentence_mark_mine, without_mine. run.
  by destruct (decide (c ∈ cells s)).
Qed.

Lemma Sentence_mark_safe_run c s :
  Sentence_mark_safe c s = Ok (tt, without_safe c s).
Proof.
  unfold Sentence_mark_safe, without_safe. run.
  destruct (decide (c ∈ cells s)); [done | by destruct s].
Qed.

Lemma for_sentences_map (body : M Sentence unit) (f : Sentence → Sentence) k :
  (∀ s, body s = Ok (tt, f s)) →
  for_sentences (λ _, body) tt k = Ok (tt, f <$> k).
Proof.
  intros Hb. induction k as [|s k IH]; simpl; [done|].
  by rewrite Hb, IH.
Qed.

Lemma mark_mine_run c st : mark_mine c st = Ok (tt, with_mine c st).
Proof.
  unfold mark_mine, for_knowledge. run.
  by rewrite (for_sentences_map _ (without_mine c)) by apply Sentence_mark_mine_run.
Qed.

Lemma mark_safe_run c st : mark_safe c st = Ok (tt, with_safe c st).
Proof.
  unfold mark_safe, for_knowledge. run.
  by rewrite (for_sentences_map _ (without_safe c)) by apply Sentence_mark_safe_run.
Qed.

Lemma for_each_run {A : Type} (body : A → M AI unit) (f : A → AI → AI) l st :
  (∀ x st, body x st = Ok (tt, f x st)) →
  for_each l body st = Ok (tt, foldl (λ st x, f x st) st l).
Proof.
  intros Hb. revert st. induction l as [|x l IH]; intros st; simpl; [done|].
  run. by rewrite Hb, IH.
Qed.

Lemma collect_from (S0 M0 : gset Cell) k :
  for_sentences
    (λ '(new_safes, new_mines),
       let* ks := known_safes in
       let new_safes := new_safes ∪ ks in
       let* km := known_mines in
       let new_mines := new_mines ∪ km in
       ret (new_safes, new_mines))
    (S0, M0) k
  = Ok ((S0 ∪ all_safes k, M0 ∪ all_mines k), k).
Proof.
  revert S0 M0. induction k as [|s k IH]; intros S0 M0; simpl.
  - unfold all_safes, all_mines; simpl. by rewrite !(right_id_L ∅ (∪)).
  - unfold bind at 1 2. rewrite known_safes_run, known_mines_run. unfold ret.
    rewrite IH. unfold all_safes, all_mines; simpl.
    by rewrite !(assoc_L (∪)).
Qed.

Lemma with_knowledge_same st : with_knowledge (knowledge st) st = st.
Proof. by destruct st. Qed.

Lemma collect_known_run st :
  collect_known st
  = Ok ((all_safes (knowledge st), all_mines (knowledge st)), st).
Proof.
  unfold collect_known, for_knowledge. run. rewrite collect_from. run.
  fold (with_knowledge (knowledge st) st). rewrite with_knowledge_same.
  by rewrite !(left_id_L ∅ (∪)).
Qed.

Lemma add_sentence_run cell n st :
  add_sentence cell n st = Ok (tt, observed cell n st).
Proof.
  unfold add_sentence, observed, bind, get, set_moves_made.
  rewrite mark_safe_run. cbv beta iota zeta.
  by destruct (foldl (look_at _) _ (block cell)).
Qed.

Lemma resolve_and_infer_run st :
  resolve_and_infer (all_safes (knowledge st)) (all_mines (knowledge st)) st
  = Ok (tt, round st).
Proof.
  unfold resolve_and_infer, round, resolved. run.
  rewrite (for_each_run _ with_safe) by apply mark_safe_run.
  by rewrite (for_each_run _ with_mine) by apply mark_mine_run.
Qed.

Lemma closure_S fuel st :
  closure (S fuel) st
  = if decide (settled st) then Ok (tt, st) else closure fuel (round st).
Proof.
  simpl. unfold bind at 1. rewrite collect_known_run.
  unfold settled. destruct (decide _); [done|].
  unfold bind. by rewrite resolve_and_infer_run.
Qed.

Lemma add_knowledge_run fuel cell n st :
  add_knowledge fuel cell n st = closure fuel (observed cell n st).
Proof. unfold add_knowledge, bind. by rewrite add_sentence_run. Qed.

End Runs.

(** ** The operations of a sentence *)

(** C7. [known_mines] returns the whole cell set of the sentence when
    the number of cells equals the count and the count is not zero, and
    the empty set otherwise; [known_safes] returns the whole cell set
    when the count is zero, and the empty set otherwise.  Both leave the
    sentence as it was, and neither raises. *)
Theorem known_mines_known_safes_spec `{SetOrder} (s : Sentence) :
  known_mines s
  = Ok (if decide (Z.of_nat (size (cells s)) = count s ∧ count s ≠ 0)
        then cells s else ∅, s)
  ∧ known_safes s
  = Ok (if decide (count s = 0) then cells s else ∅, s).
Proof. split; [apply known_mines_run | apply known_safes_run]. Qed.

(** C10. [Sentence.mark_mine] and [Sentence.mark_safe] never raise: on
    a cell outside the sentence they change nothing; on a cell of the
    sentence both remove it and [mark_mine] lowers the count by one
    whatever the count is, so that a count of 0 becomes -1.  No
    operation checks the count against the cells: the constructor stores
    any count with any cell set, and [known_mines] and [known_safes]
    return on every sentence. *)
Theorem Sentence_marks_total :
  (∀ s c, Sentence_mark_mine c s
          = Ok (tt, if decide (c ∈ cells s)
                    then {| cells := cells s ∖ {[c]}; count := count s - 1 |}
                    else s))
  ∧ (∀ s c, Sentence_mark_safe c s
            = Ok (tt, if decide (c ∈ cells s)
                      then {| cells := cells s ∖ {[c]}; count := count s |}
                      else s))
  ∧ (∀ cs n, cells (Sentence_init cs n) = cs ∧ count (Sentence_init cs n) = n)
  ∧ (∀ (order : SetOrder) s,
       ∃ X Y, known_mines s = Ok (X, s) ∧ known_safes s = Ok (Y, s))
  ∧ Sentence_mark_mine (0, 0) (Sentence_init {[ (0, 0) ]} 0)
    = Ok (tt, {| cells := ∅; count := -1 |}).
Proof.
  split; [|split; [|split; [|split]]].
  - intros s c. apply Sentence_mark_mine_run.
  - intros s c. apply Sentence_mark_safe_run.
  - done.
  - intros order s. eexists _, _.
    split; [apply known_mines_run | apply known_safes_run].
  - rewrite Sentence_mark_mine_run. unfold without_mine, Sentence_init; simpl.
    rewrite decide_True by set_solver.
    by replace (({[ (0, 0) ]} : gset Cell) ∖ {[ (0, 0) ]}) with (∅ : gset Cell)
      by set_solver.
Qed.

(** ** The marking operations of the knowledge base *)

Lemma without_mine_twice c s : without_mine c (without_mine c s) = without_mine c s.
Proof.
  unfold without_mine at 2 3. destruct (decide (c ∈ cells s)) as [Hc|Hc].
  - unfold without_mine; simpl. rewrite decide_False; [done | set_solver].
  - unfold without_mine. by rewrite decide_False.
Qed.

Lemma without_safe_twice c s : without_safe c (without_safe c s) = without_safe c s.
Proof.
  unfold without_safe at 2 3. destruct (decide (c ∈ cells s)) as [Hc|Hc].
  - unfold without_safe; simpl. rewrite decide_False; [done | set_solver].
  - unfold without_safe. by rewrite decide_False.
Qed.

(** C9. [mark_mine] and [mark_safe] of the knowledge base are
    idempotent: marking the same cell twice ends in the state that
    marking it once ends in. *)
Theorem mark_idempotent (st : AI) (c : Cell) :
  (mark_mine c >> mark_mine c) st = mark_mine c st
  ∧ (mark_safe c >> mark_safe c) st = mark_safe c st.
Proof.
  unfold bind. rewrite !mark_mine_run, !mark_safe_run. split; do 2 f_equal.
  - unfold with_mine; simpl. f_equal; [set_solver|].
    rewrite <- list_fmap_compose. apply list_fmap_ext. intros _ s _.
    apply without_mine_twice.
  - unfold with_safe; simpl. f_equal; [set_solver|].
    rewrite <- list_fmap_compose. apply list_fmap_ext. intros _ s _.
    apply without_safe_twice.
Qed.

(** ** Choosing a safe move *)

Lemma first_not_made_None made l :
  first_not_made made l = None ↔ ∀ c, c ∈ l → c ∈ made.
Proof.
  induction l as [|x l IH]; simpl.
  - split; [intros _ c Hc; by apply elem_of_nil in Hc | done].
  - destruct (decide (x ∈ made)) as [Hx|Hx].
    + rewrite IH. split.
      * intros Hl c Hc. apply elem_of_cons in Hc as [->|Hc]; auto.
      * intros Hl c Hc. apply Hl. by right.
    + split; [done|]. intros Hl. destruct Hx. apply Hl. by left.
Qed.

Lemma first_not_made_Some made l c :
  first_not_made made l = Some c → c ∈ l ∧ c ∉ made.
Proof.
  induction l as [|x l IH]; simpl; [done|].
  destruct (decide (x ∈ made)) as [Hx|Hx].
  - intros Hc. destruct (IH Hc). split; [by right | done].
  - intros [= ->]. split; [by left | done].
Qed.

(** C8. [make_safe_move] returns a cell of [safes] that is not in
    [moves_made] when there is one and [None] when there is none; it
    never returns a cell of [moves_made], never raises, and leaves the
    state as it was. *)
Theorem make_safe_move_spec `{SetOrder} (st : AI) :
  ∃ r, make_safe_move st = Ok (r, st)
       ∧ (r = None ↔ safes st ∖ moves_made st = ∅)
       ∧ (∀ c, r = Some c → c ∈ safes st ∧ c ∉ moves_made st).
Proof.
  eexists. split; [reflexivity|]. split.
  - rewrite first_not_made_None. split.
    + intros Hl. apply set_eq. intros c. rewrite elem_of_difference.
      split; [|set_solver]. intros [Hs Hm]. destruct Hm. apply Hl.
      by apply elem_of_iter_set.
    + intros He c Hc. apply elem_of_iter_set in Hc.
      destruct (decide (c ∈ moves_made st)); [done|]. set_solver.
  - intros c Hc. apply first_not_made_Some in Hc as [Hc Hm].
    by apply elem_of_iter_set in Hc.
Qed.

(** ** The cells that the sentences mention *)

Lemma elem_of_cells_in c k : c ∈ cells_in k ↔ ∃ s, s ∈ k ∧ c ∈ cells s.
Proof.
  unfold cells_in. rewrite elem_of_union_list. split.
  - intros (X & HX & Hc). apply list_elem_of_fmap in HX as (s & -> & Hs). eauto.
  - intros (s & Hs & Hc). exists (cells s). split; [|done].
    apply list_elem_of_fmap. eauto.
Qed.

Lemma cells_without_safe c s : cells (without_safe c s) = cells s ∖ {[c]}.
Proof. unfold without_safe. destruct (decide _); simpl; set_solver. Qed.

Lemma cells_without_mine c s : cells (without_mine c s) = cells s ∖ {[c]}.
Proof. unfold without_mine. destruct (decide _); simpl; set_solver. Qed.

Lemma cells_in_without_safe c k :
  cells_in (without_safe c <$> k) = cells_in k ∖ {[c]}.
Proof.
  apply set_eq. intros d. rewrite elem_of_difference, !elem_of_cells_in. split.
  - intros (s' & Hs' & Hd). apply list_elem_of_fmap in Hs' as (s & -> & Hs).
    rewrite cells_without_safe in Hd. set_solver.
  - intros [(s & Hs & Hd) Hne]. exists (without_safe c s). split.
    + apply list_elem_of_fmap. eauto.
    + rewrite cells_without_safe. set_solver.
Qed.

Lemma cells_in_without_mine c k :
  cells_in (without_mine c <$> k) = cells_in k ∖ {[c]}.
Proof.
  apply set_eq. intros d. rewrite elem_of_difference, !elem_of_cells_in. split.
  - intros (s' & Hs' & Hd). apply list_elem_of_fmap in Hs' as (s & -> & Hs).
    rewrite cells_without_mine in Hd. set_solver.
  - intros [(s & Hs & Hd) Hne]. exists (without_mine c s). split.
    + apply list_elem_of_fmap. eauto.
    + rewrite cells_without_mine. set_solver.
Qed.

Lemma cells_in_app k1 k2 : cells_in (k1 ++ k2) = cells_in k1 ∪ cells_in k2.
Proof. unfold cells_in. by rewrite fmap_app, union_list_app_L. Qed.

Lemma safes_of_subseteq s : safes_of s ⊆ cells s.
Proof. unfold safes_of. destruct (decide _); set_solver. Qed.

Lemma mines_of_subseteq s : mines_of s ⊆ cells s.
Proof. unfold mines_of. destruct (decide _); set_solver. Qed.

Lemma elem_of_all_safes c k : c ∈ all_safes k ↔ ∃ s, s ∈ k ∧ c ∈ safes_of s.
Proof.
  unfold all_safes. rewrite elem_of_union_list. split.
  - intros (X & HX & Hc). apply list_elem_of_fmap in HX as (s & -> & Hs). eauto.
  - intros (s & Hs & Hc). exists (safes_of s). split; [|done].
    apply list_elem_of_fmap. eauto.
Qed.

Lemma elem_of_all_mines c k : c ∈ all_mines k ↔ ∃ s, s ∈ k ∧ c ∈ mines_of s.
Proof.
  unfold all_mines. rewrite elem_of_union_list. split.
  - intros (X & HX & Hc). apply list_elem_of_fmap in HX as (s & -> & Hs). eauto.
  - intros (s & Hs & Hc). exists (mines_of s). split; [|done].
    apply list_elem_of_fmap. eauto.
Qed.

Lemma all_safes_subseteq k : all_safes k ⊆ cells_in k.
Proof.
  intros c. rewrite elem_of_all_safes, elem_of_cells_in.
  intros (s & Hs & Hc). exists s. split; [done|]. by apply safes_of_subseteq.
Qed.

Lemma all_mines_subseteq k : all_mines k ⊆ cells_in k.
Proof.
  intros c. rewrite elem_of_all_mines, elem_of_cells_in.
  intros (s & Hs & Hc). exists s. split; [done|]. by apply mines_of_subseteq.
Qed.

(** Every inferred sentence is the difference of two sentences held. *)
Lemma elem_of_infer s k :
  s ∈ infer k ↔
  ∃ s1 s2, s1 ∈ k ∧ s2 ∈ k ∧ s1 ≠ s2 ∧ cells s2 ⊆ cells s1
           ∧ s = Sentence_init (cells s1 ∖ cells s2) (count s1 - count s2)
           ∧ s ∉ k.
Proof.
  unfold infer. rewrite list_elem_of_bind. split.
  - intros (s1 & Hs & H1). apply list_elem_of_bind in Hs as (s2 & Hs & H2).
    exists s1, s2. destruct (decide _) as [[Hne Hsub]|]; [|by apply elem_of_nil in Hs].
    destruct (decide _) as [Hnew|]; [|by apply elem_of_nil in Hs].
    apply list_elem_of_singleton in Hs as ->. done.
  - intros (s1 & s2 & H1 & H2 & Hne & Hsub & -> & Hnew).
    exists s1. split; [|done]. apply list_elem_of_bind. exists s2. split; [|done].
    rewrite decide_True by done. rewrite decide_True by done.
    by apply list_elem_of_singleton.
Qed.

Lemma cells_in_infer k : cells_in (infer k) ⊆ cells_in k.
Proof.
  intros c. rewrite !elem_of_cells_in. intros (s & Hs & Hc).
  apply elem_of_infer in Hs as (s1 & s2 & H1 & _ & _ & _ & -> & _).
  exists s1. split; [done|]. simpl in Hc. set_solver.
Qed.

(** ** Termination of the loop *)

Lemma cells_in_foldl_with_safe l st :
  cells_in (knowledge (foldl (λ st c, with_safe c st) st l))
  = cells_in (knowledge st) ∖ list_to_set l.
Proof.
  revert st. induction l as [|c l IH]; intros st; simpl.
  - set_solver.
  - rewrite IH. simpl. rewrite cells_in_without_safe. set_solver.
Qed.

Lemma cells_in_foldl_with_mine l st :
  cells_in (knowledge (foldl (λ st c, with_mine c st) st l))
  = cells_in (knowledge st) ∖ list_to_set l.
Proof.
  revert st. induction l as [|c l IH]; intros st; simpl.
  - set_solver.
  - rewrite IH. simpl. rewrite cells_in_without_mine. set_solver.
Qed.

Section Termination.
Context `{SetOrder}.

Lemma cells_in_resolved st :
  cells_in (knowledge (resolved st))
  = cells_in (knowledge st)
    ∖ (all_safes (knowledge st) ∪ all_mines (knowledge st)).
Proof.
  unfold resolved. rewrite cells_in_foldl_with_mine, cells_in_foldl_with_safe.
  rewrite !list_to_set_iter_set. set_solver.
Qed.

Lemma cells_in_round st :
  cells_in (knowledge (round st)) = cells_in (knowledge (resolved st)).
Proof.
  unfold round. simpl. rewrite cells_in_app.
  pose proof (cells_in_infer (knowledge (resolved st))). set_solver.
Qed.

(** A round that does not [break] resolves a cell that some sentence
    mentions, and no sentence mentions it afterwards. *)
Lemma round_decreases st :
  ¬ settled st →
  (size (cells_in (knowledge (round st))) < size (cells_in (knowledge st)))%nat.
Proof.
  intros Hns. apply subset_size.
  rewrite cells_in_round, cells_in_resolved.
  pose proof (all_safes_subseteq (knowledge st)) as HS.
  pose proof (all_mines_subseteq (knowledge st)) as HM.
  assert (∃ c, c ∈ all_safes (knowledge st) ∪ all_mines (knowledge st))
    as [c Hc].
  { apply set_choose_L. intros He. apply Hns. unfold settled. set_solver. }
  split; [set_solver|]. intros Hsub.
  assert (c ∈ cells_in (knowledge st)) as Hin by set_solver.
  apply Hsub in Hin. set_solver.
Qed.

Lemma closure_enough fuel st :
  (size (cells_in (knowledge st)) < fuel)%nat →
  ∃ st', closure fuel st = Ok (tt, st').
Proof.
  revert st. induction fuel as [|fuel IH]; intros st Hlt; [lia|].
  rewrite closure_S. destruct (decide (settled st)) as [|Hns]; [by eexists|].
  apply IH. pose proof (round_decreases st Hns). lia.
Qed.

Lemma closure_more fuel fuel' st r :
  (fuel ≤ fuel')%nat → closure fuel st = Ok r → closure fuel' st = Ok r.
Proof.
  revert fuel' st. induction fuel as [|fuel IH]; intros fuel' st Hle; [done|].
  destruct fuel' as [|fuel']; [lia|]. rewrite !closure_S.
  destruct (decide (settled st)); [done|]. apply IH. lia.
Qed.

(** A property kept by every round that runs is kept by the loop. *)
Lemma closure_preserves (I : AI → Prop) :
  (∀ st, I st → ¬ settled st → I (round st)) →
  ∀ fuel st st', I st → closure fuel st = Ok (tt, st') → I st'.
Proof.
  intros Hround. induction fuel as [|fuel IH]; intros st st' HI; [done|].
  rewrite closure_S. destruct (decide (settled st)).
  - by intros [= <-].
  - apply IH. by apply Hround.
Qed.

Lemma closure_settled fuel st st' :
  closure fuel st = Ok (tt, st') → settled st'.
Proof.
  revert st. induction fuel as [|fuel IH]; intros st; [done|].
  rewrite closure_S. destruct (decide (settled st)).
  - by intros [= <-].
  - apply IH.
Qed.

End Termination.

(** C5. The loop of [add_knowledge] exits.  From every state, a number
    of rounds above the number of cells that the sentences mention is
    enough for [closure] to return, because every round that does not
    [break] removes a cell from all sentences and adds none; hence every
    call of [add_knowledge] returns, and returns the same state however
    many more rounds it is allowed. *)
Theorem closure_terminates `{SetOrder} (st : AI) :
  (∃ st', ∀ fuel, (size (cells_in (knowledge st)) < fuel)%nat →
                  closure fuel st = Ok (tt, st'))
  ∧ (∃ new_safes new_mines,
       collect_known st = Ok ((new_safes, new_mines), st)
       ∧ ((new_safes = ∅ ∧ new_mines = ∅)
          ∨ ∃ st', resolve_and_infer new_safes new_mines st = Ok (tt, st')
                   ∧ (size (cells_in (knowledge st'))
                      < size (cells_in (knowledge st)))%nat))
  ∧ ∀ cell n, ∃ fuel st', ∀ fuel', (fuel ≤ fuel')%nat →
                add_knowledge fuel' cell n st = Ok (tt, st').
Proof.
  split; [|split].
  - destruct (closure_enough (S (size (cells_in (knowledge st)))) st)
      as [st' Hst']; [lia|].
    exists st'. intros fuel Hlt. eapply closure_more; [|exact Hst']. lia.
  - eexists _, _. split; [apply collect_known_run|].
    destruct (decide (settled st)) as [|Hns]; [by left | right].
    eexists. split; [apply resolve_and_infer_run|].
    by apply round_decreases.
  - intros cell n.
    set (fuel := S (size (cells_in (knowledge (observed cell n st))))).
    destruct (closure_enough fuel (observed cell n st)) as [st' Hst'];
      [unfold fuel; lia|].
    exists fuel, st'. intros fuel' Hle. rewrite add_knowledge_run.
    eapply closure_more; [exact Hle | exact Hst'].
Qed.

(** ** No sentence mentions a resolved cell *)

Lemma clean_with_safe c st : clean st → clean (with_safe c st).
Proof.
  intros Hst s' d Hs' Hd. simpl in *.
  apply list_elem_of_fmap in Hs' as (s & -> & Hs).
  rewrite cells_without_safe in Hd. apply elem_of_difference in Hd as [Hd Hne].
  destruct (Hst s d Hs Hd). set_solver.
Qed.

Lemma clean_with_mine c st : clean st → clean (with_mine c st).
Proof.
  intros Hst s' d Hs' Hd. simpl in *.
  apply list_elem_of_fmap in Hs' as (s & -> & Hs).
  rewrite cells_without_mine in Hd. apply elem_of_difference in Hd as [Hd Hne].
  destruct (Hst s d Hs Hd). set_solver.
Qed.

Lemma clean_foldl_with_safe l st :
  clean st → clean (foldl (λ st c, with_safe c st) st l).
Proof.
  revert st. induction l as [|c l IH]; intros st Hst; simpl; [done|].
  by apply IH, clean_with_safe.
Qed.

Lemma clean_foldl_with_mine l st :
  clean st → clean (foldl (λ st c, with_mine c st) st l).
Proof.
  revert st. induction l as [|c l IH]; intros st Hst; simpl; [done|].
  by apply IH, clean_with_mine.
Qed.

Lemma clean_infer st :
  clean st → clean (with_knowledge (knowledge st ++ infer (knowledge st)) st).
Proof.
  intros Hst s c Hs Hc. simpl in *. apply elem_of_app in Hs as [Hs|Hs].
  - by apply (Hst s).
  - apply elem_of_infer in Hs as (s1 & s2 & H1 & _ & _ & _ & -> & _).
    apply (Hst s1); [done|]. simpl in Hc. set_solver.
Qed.

(** What the double loop of step 3 collects. *)
Lemma look_at_cells st l U0 m0 c :
  c ∈ (foldl (look_at st) (U0, m0) l).1 ↔
  c ∈ U0 ∨ (c ∈ l ∧ in_bounds (height st) (width st) c
            ∧ (c ∉ safes st) ∧ (c ∉ mines st)).
Proof.
  revert U0 m0. induction l as [|d l IH]; intros U0 m0; simpl.
  - split; [by left|]. intros [?|[Hc _]]; [done|]. by apply elem_of_nil in Hc.
  - rewrite IH. rewrite (elem_of_cons l c d).
    destruct (decide (in_bounds _ _ d)) as [Hb|Hb];
      [destruct (decide ((d ∉ safes st) ∧ (d ∉ mines st))) as [Hu|Hu]|].
    + rewrite elem_of_union, elem_of_singleton. split.
      * intros [[?| ->]|?]; tauto.
      * intros [?|[[->|?] ?]]; tauto.
    + split; [tauto|]. intros [?|[[->|?] ?]]; tauto.
    + split; [tauto|]. intros [?|[[->|?] ?]]; tauto.
Qed.

Lemma clean_observed cell n st : clean st → clean (observed cell n st).
Proof.
  intros Hst. unfold observed.
  set (st0 := {| height := height st; width := width st;
                 moves_made := moves_made st ∪ {[cell]}; mines := mines st;
                 safes := safes st; knowledge := knowledge st |}).
  assert (clean (with_safe cell st0)) as H1 by by apply clean_with_safe.
  revert H1. generalize (with_safe cell st0). intros st1 H1 s c Hs Hc.
  cbn in *. apply elem_of_app in Hs as [Hs|Hs]; [by apply (H1 s)|].
  apply list_elem_of_singleton in Hs as ->. cbn in Hc.
  apply look_at_cells in Hc as [Hc|(_ & _ & ? & ?)]; [set_solver | done].
Qed.

Section Reachable.
Context `{SetOrder}.

Lemma clean_round st : clean st → clean (round st).
Proof.
  intros Hst. unfold round. apply clean_infer. unfold resolved.
  by apply clean_foldl_with_mine, clean_foldl_with_safe.
Qed.

Lemma clean_add_knowledge fuel cell n st st' :
  clean st → add_knowledge fuel cell n st = Ok (tt, st') → clean st'.
Proof.
  rewrite add_knowledge_run. intros Hst.
  apply (closure_preserves clean).
  - intros st0 H0 _. by apply clean_round.
  - by apply clean_observed.
Qed.

End Reachable.

(** C3. After any sequence of calls of [add_knowledge], no sentence of
    [knowledge] contains a cell that is in [mines] or in [safes]. *)
Theorem no_resolved_cell_in_knowledge `{SetOrder} (h w : Z) (st : AI) :
  reachable h w st →
  ∀ s c, s ∈ knowledge st → c ∈ cells s → (c ∉ mines st) ∧ (c ∉ safes st).
Proof.
  induction 1 as [|st fuel cell n st' _ IH Hadd].
  - intros s c Hs. by apply elem_of_nil in Hs.
  - by apply (clean_add_knowledge fuel cell n st st').
Qed.

(** ** What the board reports *)

Lemma list_get_Ok {St A : Type} (l : list A) i (s s' : St) x :
  0 ≤ i → list_get l i s = Ok (x, s') → l !! Z.to_nat i = Some x ∧ s' = s.
Proof.
  intros Hi. unfold list_get. destruct (decide (i < 0)); [lia|].
  rewrite decide_True by done.
  destruct (l !! Z.to_nat i); [|done]. by intros [= -> ->].
Qed.

Lemma nearby_mines_from g cell l acc n g' :
  for_acc l
    (λ count c,
       if decide (c = cell) then ret count
       else if decide (in_bounds (Minesweeper.height g) (Minesweeper.width g) c) then
         let* row := list_get (Minesweeper.board g) c.1 in
         let* is_set := list_get row c.2 in
         if is_set : bool then ret (count + 1) else ret count
       else ret count)
    acc g = Ok (n, g') →
  g' = g
  ∧ n = acc + Z.of_nat (length (filter (λ c, c ≠ cell ∧ real_mine g c) l)).
Proof.
  revert acc. induction l as [|c l IH]; intros acc; simpl.
  - intros [= -> ->]. split; [done | cbn; lia].
  - unfold bind at 1. destruct (decide (c = cell)) as [->|Hne].
    + unfold ret at 1. intros Hl. apply IH in Hl as [-> ->].
      rewrite filter_cons_False by tauto. done.
    + destruct (decide (in_bounds _ _ c)) as [Hb|Hb].
      * unfold bind at 1 2.
        destruct (list_get (Minesweeper.board g) c.1 g) as [[row g1]| |] eqn:E1;
          [|done..].
        apply list_get_Ok in E1 as [E1 ->]; [|apply Hb].
        destruct (list_get row c.2 g) as [[b g2]| |] eqn:E2; [|done..].
        apply list_get_Ok in E2 as [E2 ->]; [|apply Hb].
        assert (mine_at g c = b) as Hm by (unfold mine_at; by rewrite E1, E2).
        destruct b; unfold ret at 1; intros Hl; apply IH in Hl as [-> ->].
        -- rewrite filter_cons_True by (unfold real_mine; tauto).
           split; [done | simpl; lia].
        -- rewrite filter_cons_False; [done|].
           unfold real_mine. rewrite Hm. intros (_ & _ & ?). done.
      * unfold ret at 1. intros Hl. apply IH in Hl as [-> ->].
        rewrite filter_cons_False; [done|]. unfold real_mine. tauto.
Qed.

Lemma nearby_mines_count g cell n g' :
  Minesweeper.nearby_mines cell g = Ok (n, g') →
  g' = g
  ∧ n = Z.of_nat (length (filter (λ c, c ≠ cell ∧ real_mine g c) (block cell))).
Proof.
  unfold Minesweeper.nearby_mines, bind at 1, get. intros Hl.
  apply nearby_mines_from in Hl as [-> ->]. split; [done | lia].
Qed.

Lemma is_mine_false g cell g' :
  Minesweeper.is_mine cell g = Ok (false, g') → ¬ real_mine g cell.
Proof.
  destruct cell as [i j]. unfold Minesweeper.is_mine, bind, get.
  intros Hl [Hb Hm].
  destruct (list_get (Minesweeper.board g) i g) as [[row g1]| |] eqn:E1; [|done..].
  apply list_get_Ok in E1 as [E1 ->]; [|apply Hb].
  apply list_get_Ok in Hl as [E2 _]; [|apply Hb].
  unfold mine_at in Hm. simpl in Hm. by rewrite E1, E2 in Hm.
Qed.

(** ** Soundness of the deductions *)

Section Sound.
Context (P : Cell → Prop) `{!∀ c, Decision (P c)}.

Lemma filter_remove_other (X : gset Cell) c :
  ¬ P c → filter P (X ∖ {[c]}) = filter P X.
Proof. intros Hc. apply set_eq. intros d. set_solver. Qed.

Lemma size_filter_split (X Y : gset Cell) :
  Y ⊆ X →
  size (filter P X) = (size (filter P (X ∖ Y)) + size (filter P Y))%nat.
Proof.
  intros Hsub. rewrite <- size_union by set_solver. f_equal.
  apply set_eq. intros d. rewrite elem_of_union, !elem_of_filter, elem_of_difference.
  destruct (decide (d ∈ Y)); set_solver.
Qed.

Lemma size_filter_remove (X : gset Cell) c :
  P c → c ∈ X → size (filter P X) = S (size (filter P (X ∖ {[c]}))).
Proof.
  intros Hc Hin. rewrite (size_filter_split X {[c]}) by set_solver.
  replace (filter P ({[c]} : gset Cell)) with ({[c]} : gset Cell) by set_solver.
  rewrite size_singleton. lia.
Qed.

Lemma true_of_without_safe c s : ¬ P c → true_of P s → true_of P (without_safe c s).
Proof.
  unfold true_of, without_safe. intros Hc Hs.
  destruct (decide _); [|done]. simpl. by rewrite filter_remove_other.
Qed.

Lemma true_of_without_mine c s : P c → true_of P s → true_of P (without_mine c s).
Proof.
  unfold true_of, without_mine. intros Hc Hs.
  destruct (decide _) as [Hin|]; [|done]. simpl.
  rewrite Hs, (size_filter_remove _ c Hc Hin). lia.
Qed.

Lemma sound_with_safe c st : ¬ P c → sound P st → sound P (with_safe c st).
Proof.
  intros Hc (Hm & Hs & Hk). split; [|split]; simpl.
  - done.
  - intros d [Hd| ->%elem_of_singleton]%elem_of_union; auto.
  - intros s' (s & -> & Hin)%list_elem_of_fmap.
    by apply true_of_without_safe, Hk.
Qed.

Lemma sound_with_mine c st : P c → sound P st → sound P (with_mine c st).
Proof.
  intros Hc (Hm & Hs & Hk). split; [|split]; simpl.
  - intros d [Hd| ->%elem_of_singleton]%elem_of_union; auto.
  - done.
  - intros s' (s & -> & Hin)%list_elem_of_fmap.
    by apply true_of_without_mine, Hk.
Qed.

Lemma sound_foldl_with_safe l st :
  (∀ c, c ∈ l → ¬ P c) → sound P st → sound P (foldl (λ st c, with_safe c st) st l).
Proof.
  revert st. induction l as [|c l IH]; intros st Hl Hst; simpl; [done|].
  apply IH; [intros d Hd; apply Hl; by right|].
  apply sound_with_safe; [apply Hl; by left | done].
Qed.

Lemma sound_foldl_with_mine l st :
  (∀ c, c ∈ l → P c) → sound P st → sound P (foldl (λ st c, with_mine c st) st l).
Proof.
  revert st. induction l as [|c l IH]; intros st Hl Hst; simpl; [done|].
  apply IH; [intros d Hd; apply Hl; by right|].
  apply sound_with_mine; [apply Hl; by left | done].
Qed.

(** A true sentence of count 0 holds no mine; a true sentence with as
    many cells as its count holds only mines. *)
Lemma safes_of_sound s c : true_of P s → c ∈ safes_of s → ¬ P c.
Proof.
  unfold true_of, safes_of. intros Hs Hc Hp.
  destruct (decide (count s = 0)) as [H0|]; [|set_solver].
  assert (size (filter P (cells s)) = 0%nat) as Hz by lia.
  apply size_empty_inv in Hz. set_solver.
Qed.

Lemma mines_of_sound s c : true_of P s → c ∈ mines_of s → P c.
Proof.
  unfold true_of, mines_of. intros Hs Hc.
  destruct (decide _) as [[Hsz _]|]; [|set_solver].
  assert (filter P (cells s) = cells s) as Heq.
  { apply set_subseteq_size_eq; [set_solver | lia]. }
  rewrite <- Heq in Hc. set_solver.
Qed.

Lemma true_of_inferred s1 s2 :
  cells s2 ⊆ cells s1 → true_of P s1 → true_of P s2 →
  true_of P (Sentence_init (cells s1 ∖ cells s2) (count s1 - count s2)).
Proof.
  unfold true_of. intros Hsub H1 H2. simpl.
  rewrite H1, H2, (size_filter_split (cells s1) (cells s2) Hsub). lia.
Qed.

Lemma sound_infer st :
  sound P st → sound P (with_knowledge (knowledge st ++ infer (knowledge st)) st).
Proof.
  intros (Hm & Hs & Hk). split; [|split]; simpl; [done..|].
  intros s [Hin|Hin]%elem_of_app; [by apply Hk|].
  apply elem_of_infer in Hin as (s1 & s2 & H1 & H2 & _ & Hsub & -> & _).
  apply true_of_inferred; auto.
Qed.

Lemma sound_round `{SetOrder} st : sound P st → sound P (round st).
Proof.
  intros Hst. unfold round. apply sound_infer. unfold resolved.
  destruct Hst as (Hm & Hs & Hk).
  apply sound_foldl_with_mine.
  { intros c (s & Hin & Hc)%elem_of_iter_set%elem_of_all_mines.
    eapply mines_of_sound; eauto. }
  apply sound_foldl_with_safe; [|done].
  intros c (s & Hin & Hc)%elem_of_iter_set%elem_of_all_safes.
  eapply safes_of_sound; eauto.
Qed.

End Sound.

(** ** The sentence of an observation *)

Lemma NoDup_block cell : NoDup (block cell).
Proof.
  unfold block. apply NoDup_bind.
  - intros i1 i2 c _ _ (j1 & Hc1 & _)%list_elem_of_bind (j2 & Hc2 & _)%list_elem_of_bind.
    apply list_elem_of_singleton in Hc1, Hc2. congruence.
  - intros i _. apply NoDup_bind.
    + intros j1 j2 c _ _ Hc1%list_elem_of_singleton Hc2%list_elem_of_singleton.
      congruence.
    + intros j _. apply NoDup_singleton.
    + apply NoDup_seqZ.
  - apply NoDup_seqZ.
Qed.

Lemma elem_of_block cell c :
  c ∈ block cell ↔
  (cell.1 - 1 ≤ c.1 ≤ cell.1 + 1) ∧ (cell.2 - 1 ≤ c.2 ≤ cell.2 + 1).
Proof.
  unfold block. rewrite list_elem_of_bind. split.
  - intros (i & (j & ->%list_elem_of_singleton & Hj%elem_of_seqZ)%list_elem_of_bind
              & Hi%elem_of_seqZ). simpl. lia.
  - intros [Hi Hj]. exists c.1. split; [|apply elem_of_seqZ; lia].
    apply list_elem_of_bind. exists c.2. split; [|apply elem_of_seqZ; lia].
    apply list_elem_of_singleton. by destruct c.
Qed.

(** The counter of the double loop of step 3. *)
Lemma look_at_count st l U0 m0 :
  (foldl (look_at st) (U0, m0) l).2
  = m0 + Z.of_nat (length (filter (λ c, c ∈ mines st) l)).
Proof.
  revert U0 m0. induction l as [|d l IH]; intros U0 m0; simpl; [cbn; lia|].
  rewrite IH. destruct (decide (d ∈ mines st)).
  - rewrite filter_cons_True by done. simpl. lia.
  - by rewrite filter_cons_False by done.
Qed.

Lemma look_at_set st l :
  (foldl (look_at st) (∅, 0) l).1 = list_to_set (filter (undetermined st) l).
Proof.
  apply set_eq. intros c.
  rewrite look_at_cells, elem_of_list_to_set, list_elem_of_filter.
  unfold undetermined. set_solver.
Qed.

Section SoundObservation.
Context (P : Cell → Prop) `{!∀ c, Decision (P c)}.

Lemma size_filter_list_to_set (l : list Cell) :
  NoDup l → size (filter P (list_to_set l : gset Cell)) = length (filter P l).
Proof.
  intros Hl. rewrite <- (size_list_to_set (C := gset Cell)) by by apply NoDup_filter.
  f_equal. apply set_eq. intros c.
  rewrite elem_of_filter, !elem_of_list_to_set, list_elem_of_filter. done.
Qed.

(** Every mine around the observed cell is either known or among the
    undetermined cells. *)
Lemma count_split st cell l :
  (∀ c, P c → in_bounds (height st) (width st) c) →
  (∀ c, c ∈ mines st → P c) →
  (∀ c, c ∈ safes st → ¬ P c) →
  cell ∈ safes st →
  length (filter (λ c, c ≠ cell ∧ P c) l)
  = (length (filter P (filter (undetermined st) l))
     + length (filter (λ c, c ∈ mines st) l))%nat.
Proof.
  intros Hb Hm Hs Hcell. induction l as [|d l IH]; [done|].
  destruct (decide (d ∈ mines st)) as [Hd|Hd].
  - rewrite (filter_cons_True (λ c, c ∈ mines st)) by done.
    rewrite (filter_cons_False (undetermined st)) by (unfold undetermined; tauto).
    rewrite filter_cons_True; [simpl; lia|].
    split; [|by apply Hm]. intros ->. by apply (Hs cell), Hm.
  - rewrite (filter_cons_False (λ c, c ∈ mines st)) by done.
    destruct (decide (P d)) as [Hp|Hp].
    + assert (d ∉ safes st) as Hns by (intros ?; by apply (Hs d)).
      rewrite (filter_cons_True (undetermined st))
        by (unfold undetermined; auto).
      rewrite (filter_cons_True P) by done.
      rewrite filter_cons_True; [simpl; lia|].
      split; [|done]. by intros ->.
    + rewrite (filter_cons_False (λ c, c ≠ cell ∧ P c)) by tauto.
      destruct (decide (undetermined st d)).
      * rewrite (filter_cons_True (undetermined st)) by done.
        by rewrite (filter_cons_False P) by done.
      * by rewrite (filter_cons_False (undetermined st)) by done.
Qed.

Lemma sound_observed cell n st :
  (∀ c, P c → in_bounds (height st) (width st) c) →
  ¬ P cell →
  n = Z.of_nat (length (filter (λ c, c ≠ cell ∧ P c) (block cell))) →
  sound P st → sound P (observed cell n st).
Proof.
  intros Hb Hcell Hn Hst. unfold observed.
  set (st0 := {| height := height st; width := width st;
                 moves_made := moves_made st ∪ {[cell]}; mines := mines st;
                 safes := safes st; knowledge := knowledge st |}).
  assert (sound P (with_safe cell st0)) as H1.
  { apply sound_with_safe; [done|]. exact Hst. }
  assert (cell ∈ safes (with_safe cell st0)) as Hin by (simpl; set_solver).
  assert (∀ c, P c → in_bounds (height (with_safe cell st0))
                               (width (with_safe cell st0)) c) as Hb1 by exact Hb.
  revert H1 Hin Hb1. generalize (with_safe cell st0).
  intros st1 (Hm & Hs & Hk) Hin Hb1.
  split; [|split]; cbn; [done..|].
  intros s [Hs1| ->%list_elem_of_singleton]%elem_of_app; [by apply Hk|].
  unfold true_of. cbn. rewrite look_at_count, look_at_set.
  rewrite size_filter_list_to_set by apply NoDup_filter, NoDup_block.
  rewrite Hn, (count_split st1 cell (block cell) Hb1 Hm Hs Hin). lia.
Qed.

End SoundObservation.

(** ** Playing against a board *)

Lemma foldl_with_safe_board l st :
  height (foldl (λ st c, with_safe c st) st l) = height st
  ∧ width (foldl (λ st c, with_safe c st) st l) = width st.
Proof.
  revert st. induction l as [|c l IH]; intros st; simpl; [done|].
  by destruct (IH (with_safe c st)) as [-> ->].
Qed.

Lemma foldl_with_mine_board l st :
  height (foldl (λ st c, with_mine c st) st l) = height st
  ∧ width (foldl (λ st c, with_mine c st) st l) = width st.
Proof.
  revert st. induction l as [|c l IH]; intros st; simpl; [done|].
  by destruct (IH (with_mine c st)) as [-> ->].
Qed.

Section Played.
Context `{SetOrder}.

Lemma round_board st :
  height (round st) = height st ∧ width (round st) = width st.
Proof.
  unfold round, resolved. simpl.
  destruct (foldl_with_mine_board (iter_set (all_mines (knowledge st)))
    (foldl (λ st c, with_safe c st) st (iter_set (all_safes (knowledge st)))))
    as [-> ->].
  apply foldl_with_safe_board.
Qed.

Lemma agrees_round g st : agrees g st → agrees g (round st).
Proof.
  intros [[Hh Hw] Hst]. split; [|by apply sound_round].
  destruct (round_board st) as [-> ->]. done.
Qed.

Lemma agrees_add_knowledge g fuel cell n st st' :
  agrees g st →
  Minesweeper.is_mine cell g = Ok (false, g) →
  Minesweeper.nearby_mines cell g = Ok (n, g) →
  add_knowledge fuel cell n st = Ok (tt, st') →
  agrees g st'.
Proof.
  intros [[Hh Hw] Hst] Hcell Hn. rewrite add_knowledge_run.
  apply (closure_preserves (agrees g)).
  - intros st0 H0 _. by apply agrees_round.
  - split; [done|]. apply sound_observed; [|by eapply is_mine_false| |done].
    + intros c [Hb _]. by rewrite Hh, Hw.
    + by apply nearby_mines_count in Hn as [_ ->].
Qed.

Lemma played_agrees g st : played g st → agrees g st.
Proof.
  induction 1 as [|st fuel cell n st' _ IH Hcell Hn Hadd].
  - split; [done|]. split; [|split]; simpl; [set_solver..|].
    intros s Hs. by apply elem_of_nil in Hs.
  - by apply (agrees_add_knowledge g fuel cell n st st').
Qed.

End Played.

(** C4, as the code has it.  When every call of [add_knowledge] passes
    a cell that holds no mine of a board and the count that
    [nearby_mines] of that board returns for it, [safes] and [mines] are
    disjoint after every call; moreover every cell of [mines] holds a
    mine of the board and no cell of [safes] does. *)
Theorem safes_mines_disjoint_when_played `{SetOrder}
    (g : Minesweeper.game) (st : AI) :
  played g st →
  safes st ∩ mines st = ∅
  ∧ (∀ c, c ∈ mines st → real_mine g c)
  ∧ (∀ c, c ∈ safes st → ¬ real_mine g c).
Proof.
  intros (_ & Hm & Hs & _)%played_agrees. split; [|done].
  apply set_eq. intros c. rewrite elem_of_intersection. split; [|set_solver].
  intros [Hcs Hcm]. destruct (Hs c Hcs). by apply Hm.
Qed.

Lemma two_reports_run :
  (add_knowledge 1 (1, 1) 1 >> add_knowledge 1 (0, 1) 1) (AI_init 2 2)
  = Ok (tt, after_two_reports).
Proof. vm_compute. reflexivity. Qed.

Lemma one_report_run :
  add_knowledge 1 (1, 1) 1 (AI_init 2 2) = Ok (tt, after_one_report).
Proof. vm_compute. reflexivity. Qed.

Lemma second_report_run :
  add_knowledge 1 (0, 1) 1 after_one_report = Ok (tt, after_two_reports).
Proof. vm_compute. reflexivity. Qed.

Lemma reachable_after_two_reports : reachable 2 2 after_two_reports.
Proof.
  eapply reach_add; [|exact second_report_run].
  eapply reach_add; [|exact one_report_run].
  apply reach_init.
Qed.

Lemma played_after_two_reports : played board_2x2 after_two_reports.
Proof.
  apply (played_add board_2x2 after_one_report 1%nat (0, 1) 1);
    [|vm_compute; reflexivity..].
  apply (played_add board_2x2 (AI_init 2 2) 1%nat (1, 1) 1);
    [|vm_compute; reflexivity..].
  apply played_init.
Qed.

Lemma no_resolved_cell_in_knowledge_witness :
  reachable 2 2 after_two_reports
  ∧ ∀ s c, s ∈ knowledge after_two_reports → c ∈ cells s →
           (c ∉ mines after_two_reports) ∧ (c ∉ safes after_two_reports).
Proof.
  assert (reachable 2 2 after_two_reports) as Hreach.
  { apply (reach_add 2 2 after_one_report 1%nat (0, 1) 1);
      [|vm_compute; reflexivity].
    apply (reach_add 2 2 (AI_init 2 2) 1%nat (1, 1) 1);
      [|vm_compute; reflexivity].
    apply reach_init. }
  split; [exact Hreach|].
  exact (no_resolved_cell_in_knowledge 2 2 after_two_reports Hreach).
Defined.

Lemma safes_mines_disjoint_when_played_witness :
  played board_2x2 after_two_reports
  ∧ safes after_two_reports ∩ mines after_two_reports = ∅
  ∧ (∀ c, c ∈ mines after_two_reports → real_mine board_2x2 c)
  ∧ (∀ c, c ∈ safes after_two_reports → ¬ real_mine board_2x2 c).
Proof.
  assert (played board_2x2 after_two_reports) as Hplayed.
  { apply (played_add board_2x2 after_one_report 1%nat (0, 1) 1);
      [|vm_compute; reflexivity..].
    apply (played_add board_2x2 (AI_init 2 2) 1%nat (1, 1) 1);
      [|vm_compute; reflexivity..].
    apply played_init. }
  split; [exact Hplayed|].
  exact (safes_mines_disjoint_when_played board_2x2 after_two_reports Hplayed).
Defined.

(** C4, as stated, fails.  On a board of one row and two columns,
    [add_knowledge((0, 0), 1)] makes [(0, 1)] a mine, and
    [add_knowledge((0, 1), 0)] then marks the same cell safe. *)
Lemma safes_mines_overlap :
  ∃ st, (add_knowledge 2 (0, 0) 1 >> add_knowledge 2 (0, 1) 0) (AI_init 1 2)
        = Ok (tt, st)
        ∧ reachable 1 2 st
        ∧ safes st ∩ mines st ≠ ∅.
Proof.
  exists {| height := 1; width := 2; moves_made := {[ (0, 0); (0, 1) ]};
            mines := {[ (0, 1) ]}; safes := {[ (0, 0); (0, 1) ]};
            knowledge := [ {| cells := ∅; count := 0 |};
                           {| cells := ∅; count := -1 |} ] |}.
  split; [vm_compute; reflexivity|]. split.
  - apply (reach_add 1 2 after_first_report_1x2 2%nat (0, 1) 0);
      [|vm_compute; reflexivity].
    apply (reach_add 1 2 (AI_init 1 2) 2%nat (0, 0) 1);
      [|vm_compute; reflexivity].
    apply reach_init.
  - simpl. intros He. assert ((0, 1) ∈ (∅ : gset Cell)) as Hin; [|set_solver].
    rewrite <- He. set_solver.
Qed.

(** C2, as stated, fails.  On the board [board_2x2] the reports for
    [(1, 1)] and [(0, 1)] leave two equal sentences in [knowledge]:
    marking [(0, 1)] safe shrinks the first sentence to the cells and
    count of the second. *)
Lemma equal_sentences_retained :
  reachable 2 2 after_two_reports
  ∧ played board_2x2 after_two_reports
  ∧ knowledge after_two_reports
    = [ Sentence_init {[ (0, 0); (1, 0) ]} 1; Sentence_init {[ (0, 0); (1, 0) ]} 1 ]
  ∧ ¬ NoDup (knowledge after_two_reports).
Proof.
  split; [exact reachable_after_two_reports|].
  split; [exact played_after_two_reports|]. split; [done|].
  simpl. rewrite NoDup_cons, not_elem_of_cons. tauto.
Qed.

(** ** Sentences are never removed *)

Lemma kept_refl k : kept k k.
Proof. intros i s Hs. by exists s. Qed.

Lemma kept_trans k1 k2 k3 : kept k1 k2 → kept k2 k3 → kept k1 k3.
Proof.
  intros H12 H23 i s Hs. destruct (H12 i s Hs) as (s2 & Hs2 & Hsub2).
  destruct (H23 i s2 Hs2) as (s3 & Hs3 & Hsub3). exists s3. set_solver.
Qed.

Lemma kept_fmap (f : Sentence → Sentence) k :
  (∀ s, cells (f s) ⊆ cells s) → kept k (f <$> k).
Proof.
  intros Hf i s Hs. exists (f s). split; [|apply Hf].
  by rewrite list_lookup_fmap, Hs.
Qed.

Lemma kept_app k k' : kept k (k ++ k').
Proof. intros i s Hs. exists s. split; [|done]. by apply lookup_app_l_Some. Qed.

Lemma kept_with_safe c st : kept (knowledge st) (knowledge (with_safe c st)).
Proof. apply kept_fmap. intros s. rewrite cells_without_safe. set_solver. Qed.

Lemma kept_with_mine c st : kept (knowledge st) (knowledge (with_mine c st)).
Proof. apply kept_fmap. intros s. rewrite cells_without_mine. set_solver. Qed.

Lemma kept_foldl_with_safe l st :
  length (knowledge (foldl (λ st c, with_safe c st) st l)) = length (knowledge st)
  ∧ kept (knowledge st) (knowledge (foldl (λ st c, with_safe c st) st l)).
Proof.
  revert st. induction l as [|c l IH]; intros st; simpl.
  - split; [done | apply kept_refl].
  - destruct (IH (with_safe c st)) as [-> Hk]. split.
    + simpl. by rewrite length_fmap.
    + eapply kept_trans; [apply kept_with_safe | exact Hk].
Qed.

Lemma kept_foldl_with_mine l st :
  length (knowledge (foldl (λ st c, with_mine c st) st l)) = length (knowledge st)
  ∧ kept (knowledge st) (knowledge (foldl (λ st c, with_mine c st) st l)).
Proof.
  revert st. induction l as [|c l IH]; intros st; simpl.
  - split; [done | apply kept_refl].
  - destruct (IH (with_mine c st)) as [-> Hk]. split.
    + simpl. by rewrite length_fmap.
    + eapply kept_trans; [apply kept_with_mine | exact Hk].
Qed.

Lemma kept_round `{SetOrder} st :
  (length (knowledge st) ≤ length (knowledge (round st)))%nat
  ∧ kept (knowledge st) (knowledge (round st)).
Proof.
  unfold round, resolved. simpl.
  set (l1 := iter_set (all_safes (knowledge st))).
  set (l2 := iter_set (all_mines (knowledge st))).
  destruct (kept_foldl_with_safe l1 st) as [E1 K1].
  destruct (kept_foldl_with_mine l2 (foldl (λ st c, with_safe c st) st l1))
    as [E2 K2].
  split.
  - rewrite length_app, E2, E1. lia.
  - eapply kept_trans; [exact K1|]. eapply kept_trans; [exact K2|]. apply kept_app.
Qed.

Lemma kept_observed cell n st :
  length (knowledge (observed cell n st)) = S (length (knowledge st))
  ∧ kept (knowledge st) (knowledge (observed cell n st)).
Proof.
  unfold observed. cbn. split.
  - rewrite length_app, length_fmap. simpl. lia.
  - eapply kept_trans; [|apply kept_app]. apply kept_fmap.
    intros s. rewrite cells_without_safe. set_solver.
Qed.

(** C2, as the code has it.  A call of [add_knowledge] that returns
    removes no sentence: [knowledge] is longer than before, and holds at
    every earlier position the sentence that was there, with the same
    cells or fewer; sentences that marking has made equal therefore both
    stay.  Equal sentences are avoided in one place only: subset
    inference appends a derived sentence only when no equal sentence is
    in [knowledge] at that time. *)
Theorem knowledge_keeps_every_sentence `{SetOrder}
    (fuel : nat) (cell : Cell) (n : Z) (st st' : AI) :
  add_knowledge fuel cell n st = Ok (tt, st') →
  (length (knowledge st) < length (knowledge st'))%nat
  ∧ kept (knowledge st) (knowledge st')
  ∧ (∀ k s, s ∈ infer k → s ∉ k).
Proof.
  rewrite add_knowledge_run. intros Hrun. split; [|split].
  - revert Hrun.
    apply (closure_preserves
             (λ st1, (length (knowledge st) < length (knowledge st1))%nat)).
    + intros st1 H1 _. destruct (kept_round st1). lia.
    + destruct (kept_observed cell n st) as [-> _]. lia.
  - revert Hrun.
    apply (closure_preserves (λ st1, kept (knowledge st) (knowledge st1))).
    + intros st1 H1 _. eapply kept_trans; [exact H1 | apply kept_round].
    + apply kept_observed.
  - intros k s (_ & _ & _ & _ & _ & _ & _ & Hnew)%elem_of_infer. exact Hnew.
Qed.

Lemma knowledge_keeps_every_sentence_witness :
  add_knowledge 1 (0, 1) 1 after_one_report = Ok (tt, after_two_reports)
  ∧ (length (knowledge after_one_report)
     < length (knowledge after_two_reports))%nat
  ∧ kept (knowledge after_one_report) (knowledge after_two_reports)
  ∧ (∀ k s, s ∈ infer k → s ∉ k).
Proof.
  assert (add_knowledge 1 (0, 1) 1 after_one_report
          = Ok (tt, after_two_reports)) as Hrun by (vm_compute; reflexivity).
  split; [exact Hrun|].
  exact (knowledge_keeps_every_sentence 1%nat (0, 1) 1 after_one_report
           after_two_reports Hrun).
Defined.

(** ** Subset inference and the early exit of the loop *)

(** In a round that runs, every pair of different sentences, one within
    the other, yields its difference unless an equal sentence is held. *)
Lemma round_infers `{SetOrder} st s1 s2 :
  let k := knowledge (resolved st) in
  s1 ∈ k → s2 ∈ k → s1 ≠ s2 → cells s2 ⊆ cells s1 →
  Sentence_init (cells s1 ∖ cells s2) (count s1 - count s2)
  ∈ knowledge (round st).
Proof.
  intros k H1 H2 Hne Hsub. unfold round. cbn. fold k.
  set (s := Sentence_init _ _).
  destruct (decide (s ∈ k)) as [Hin|Hin]; apply elem_of_app; [by left | right].
  apply elem_of_infer. by exists s1, s2.
Qed.

Lemma closure_of_settled `{SetOrder} fuel st :
  settled st → closure (S fuel) st = Ok (tt, st).
Proof. intros Hst. rewrite closure_S. by rewrite decide_True. Qed.

(** C1 fails on the code.  On [board_2x3] the reports for [(1, 1)] and
    [(1, 0)] leave in [knowledge] a sentence of four cells and a sentence
    of two of these cells, both of count 1; no sentence has count 0 or
    as many cells as its count, so the loop exits at its first test and
    the step of subset inference is not reached: the difference, the
    sentence of [(0, 2)] and [(1, 2)] with count 0, is not added and
    neither cell is marked safe, however many rounds are allowed.  The
    same holds for the two sentences of the example taken alone. *)
Theorem subset_inference_skipped :
  played board_2x3 after_corner_2x3
  ∧ (∀ fuel, (add_knowledge (S fuel) (1, 1) 1 >> add_knowledge (S fuel) (1, 0) 1)
               (AI_init 2 3) = Ok (tt, after_corner_2x3))
  ∧ (∃ A B, knowledge after_corner_2x3 = [A; B] ∧ A ≠ B ∧ cells B ⊆ cells A
            ∧ Sentence_init (cells A ∖ cells B) (count A - count B)
              = Sentence_init {[ (0, 2); (1, 2) ]} 0
            ∧ (Sentence_init (cells A ∖ cells B) (count A - count B)
               ∉ knowledge after_corner_2x3))
  ∧ ((0, 2) ∉ safes after_corner_2x3)
  ∧ (∀ fuel, closure (S fuel) example_AB = Ok (tt, example_AB))
  ∧ (Sentence_init {[ (0, 2) ]} 0 ∉ knowledge example_AB)
  ∧ ((0, 2) ∉ safes example_AB).
Proof.
  assert (∀ fuel, add_knowledge (S fuel) (1, 1) 1 (AI_init 2 3)
                  = Ok (tt, after_centre_2x3)) as H1.
  { intros fuel. rewrite add_knowledge_run.
    replace (observed (1, 1) 1 (AI_init 2 3)) with after_centre_2x3
      by (vm_compute; reflexivity).
    apply closure_of_settled. vm_compute. done. }
  assert (∀ fuel, add_knowledge (S fuel) (1, 0) 1 after_centre_2x3
                  = Ok (tt, after_corner_2x3)) as H2.
  { intros fuel. rewrite add_knowledge_run.
    replace (observed (1, 0) 1 after_centre_2x3) with after_corner_2x3
      by (vm_compute; reflexivity).
    apply closure_of_settled. vm_compute. done. }
  split; [|split; [|split; [|split; [|split; [|split]]]]].
  - apply (played_add board_2x3 after_centre_2x3 1%nat (1, 0) 1);
      [|vm_compute; reflexivity..].
    apply (played_add board_2x3 (AI_init 2 3) 1%nat (1, 1) 1);
      [|vm_compute; reflexivity..].
    apply played_init.
  - intros fuel. unfold bind. by rewrite H1, H2.
  - eexists _, _. split; [reflexivity|].
    split; [compute_done|]. split; [compute_done|].
    split; [vm_compute; reflexivity | compute_done].
  - compute_done.
  - intros fuel. apply closure_of_settled. vm_compute. done.
  - compute_done.
  - compute_done.
Qed.

(** ** The sentence that an observation appends *)

(** Steps 1 to 3 append one sentence.  Its cells are the cells of the
    block around the observed cell that are on the board, are not the
    observed cell, and are neither safe nor mines; its count is the
    reported count minus the number of cells of the block that are in
    [mines], which the observed cell is one of when it is in [mines]. *)
Lemma add_sentence_appends cell n st :
  ∃ st' new,
    add_sentence cell n st = Ok (tt, st')
    ∧ knowledge st' = (without_safe cell <$> knowledge st) ++ [new]
    ∧ (∀ c, c ∈ cells new ↔
            c ∈ block cell ∧ c ≠ cell
            ∧ in_bounds (height st) (width st) c
            ∧ (c ∉ safes st) ∧ (c ∉ mines st))
    ∧ count new
      = n - Z.of_nat (length (filter (λ c, c ≠ cell ∧ c ∈ mines st) (block cell)))
          - (if decide (cell ∈ mines st) then 1 else 0).
Proof.
  eexists _, _. split; [apply add_sentence_run|]. unfold observed. cbn.
  split; [reflexivity|]. split.
  - intros c. unfold Sentence_init. cbn [cells].
    rewrite look_at_cells. cbn. set_solver.
  - unfold Sentence_init. cbn [count]. rewrite look_at_count. cbn [mines with_safe].
    assert (∀ l, NoDup l →
      Z.of_nat (length (filter (λ c, c ∈ mines st) l))
      = Z.of_nat (length (filter (λ c, c ≠ cell ∧ c ∈ mines st) l))
        + (if decide (cell ∈ l ∧ cell ∈ mines st) then 1 else 0)) as Hl.
    { induction l as [|d l IH]; intros Hnd.
      - cbn. rewrite decide_False; [done|]. intros [Hc _].
        by apply elem_of_nil in Hc.
      - apply NoDup_cons in Hnd as [Hd Hnd]. specialize (IH Hnd).
        destruct (decide (d ∈ mines st)) as [Hm|Hm].
        + rewrite (filter_cons_True (λ c, c ∈ mines st)) by done.
          destruct (decide (d = cell)) as [->|Hne].
          * rewrite filter_cons_False by tauto.
            rewrite (decide_True (P := cell ∈ cell :: l ∧ _)) by (split; [by left | done]).
            rewrite (decide_False (P := cell ∈ l ∧ _)) in IH by tauto.
            simpl. lia.
          * rewrite filter_cons_True by done. simpl length.
            destruct (decide (cell ∈ l ∧ cell ∈ mines st)) as [[? ?]|Hn].
            -- rewrite decide_True by (split; [by right | done]). lia.
            -- rewrite decide_False; [lia|].
               intros [[?|?]%elem_of_cons ?]; [congruence | tauto].
        + rewrite (filter_cons_False (λ c, c ∈ mines st)) by done.
          rewrite filter_cons_False by tauto.
          destruct (decide (cell ∈ l ∧ cell ∈ mines st)) as [[? ?]|Hn].
          -- rewrite decide_True by (split; [by right | done]). lia.
          -- rewrite decide_False; [lia|].
             intros [[?|?]%elem_of_cons ?]; [congruence | tauto]. }
    rewrite (Hl _ (NoDup_block cell)).
    assert (cell ∈ block cell) as Hin by (apply elem_of_block; lia).
    destruct (decide (cell ∈ mines st)).
    + rewrite decide_True by done. lia.
    + rewrite decide_False by tauto. lia.
Qed.

(** C6, as the code has it.  When the observed cell is not itself in
    [mines], [add_knowledge] appends, before its loop starts, exactly one
    sentence to the sentences held (from which [mark_safe] has removed
    the observed cell): its cells are the cells around the observed cell
    that are on the board, are not the observed cell and are neither in
    [safes] nor in [mines], and its count is the reported count minus
    the number of cells around the observed cell that are in [mines]. *)
Theorem new_sentence_of_observation `{SetOrder} (cell : Cell) (n : Z) (st : AI) :
  cell ∉ mines st →
  ∃ st' new,
    (∀ fuel, add_knowledge fuel cell n st = closure fuel st')
    ∧ knowledge st' = (without_safe cell <$> knowledge st) ++ [new]
    ∧ (∀ c, c ∈ cells new ↔
            ((cell.1 - 1 ≤ c.1 ≤ cell.1 + 1) ∧ (cell.2 - 1 ≤ c.2 ≤ cell.2 + 1))
            ∧ c ≠ cell
            ∧ in_bounds (height st) (width st) c
            ∧ (c ∉ safes st) ∧ (c ∉ mines st))
    ∧ count new
      = n - Z.of_nat (length (filter (λ c, c ≠ cell ∧ c ∈ mines st) (block cell))).
Proof.
  intros Hcell.
  destruct (add_sentence_appends cell n st) as (st' & new & Hrun & Hk & Hc & Hn).
  exists st', new. split; [|split; [|split]].
  - intros fuel. unfold add_knowledge, bind. by rewrite Hrun.
  - exact Hk.
  - intros c. rewrite Hc, elem_of_block. done.
  - rewrite Hn. rewrite decide_False by done. lia.
Qed.

Lemma new_sentence_of_observation_witness :
  ((0, 1) ∉ mines after_one_report)
  ∧ ∃ st' new,
      (∀ fuel, add_knowledge fuel (0, 1) 1 after_one_report = closure fuel st')
      ∧ knowledge st'
        = (without_safe (0, 1) <$> knowledge after_one_report) ++ [new]
      ∧ (∀ c, c ∈ cells new ↔
              ((0 - 1 ≤ c.1 ≤ 0 + 1) ∧ (1 - 1 ≤ c.2 ≤ 1 + 1))
              ∧ c ≠ (0, 1)
              ∧ in_bounds 2 2 c
              ∧ (c ∉ safes after_one_report) ∧ (c ∉ mines after_one_report))
      ∧ count new
        = 1 - Z.of_nat (length (filter (λ c, c ≠ (0, 1) ∧ c ∈ mines after_one_report)
                                       (block (0, 1)))).
Proof.
  assert ((0, 1) ∉ mines after_one_report) as Hcell by compute_done.
  split; [exact Hcell|].
  exact (new_sentence_of_observation (0, 1) 1 after_one_report Hcell).
Defined.

(** C6, as stated, fails.  After [add_knowledge((0, 0), 1)] on a board
    of one row and two columns, [(0, 1)] is in [mines]; the sentence
    that [add_knowledge((0, 1), 0)] then appends has count -1, although
    no cell next to [(0, 1)] is a known mine: the loop that counts the
    known mines also looks at the observed cell. *)
Lemma observed_cell_counted_as_mine :
  reachable 1 2 after_first_report_1x2
  ∧ mines after_first_report_1x2 = {[ (0, 1) ]}
  ∧ filter (λ c, c ≠ (0, 1) ∧ c ∈ mines after_first_report_1x2) (block (0, 1))
    = []
  ∧ ∃ st',
      add_sentence (0, 1) 0 after_first_report_1x2 = Ok (tt, st')
      ∧ add_knowledge 1 (0, 1) 0 after_first_report_1x2 = Ok (tt, st')
      ∧ knowledge st'
        = (without_safe (0, 1) <$> knowledge after_first_report_1x2)
            ++ [ Sentence_init ∅ (-1) ].
Proof.
  split; [|split; [|split]].
  - apply (reach_add 1 2 (AI_init 1 2) 2%nat (0, 0) 1);
      [|vm_compute; reflexivity].
    apply reach_init.
  - reflexivity.
  - vm_compute. reflexivity.
  - eexists. split; [apply add_sentence_run|].
    split; vm_compute; reflexivity.
Qed.

(** * Further properties of the code *)

(** ** What a call of [add_knowledge] changes *)

Lemma foldl_with_safe_fields l st :
  moves_made (foldl (λ st c, with_safe c st) st l) = moves_made st
  ∧ mines (foldl (λ st c, with_safe c st) st l) = mines st
  ∧ safes (foldl (λ st c, with_safe c st) st l) = safes st ∪ list_to_set l.
Proof.
  revert st. induction l as [|c l IH]; intros st; simpl.
  - split; [done|]. split; [done | set_solver].
  - destruct (IH (with_safe c st)) as (-> & -> & ->). simpl.
    split; [done|]. split; [done | set_solver].
Qed.

Lemma foldl_with_mine_fields l st :
  moves_made (foldl (λ st c, with_mine c st) st l) = moves_made st
  ∧ mines (foldl (λ st c, with_mine c st) st l) = mines st ∪ list_to_set l
  ∧ safes (foldl (λ st c, with_mine c st) st l) = safes st.
Proof.
  revert st. induction l as [|c l IH]; intros st; simpl.
  - split; [done|]. split; [set_solver | done].
  - destruct (IH (with_mine c st)) as (-> & -> & ->). simpl.
    split; [done|]. split; [set_solver | done].
Qed.

Lemma round_fields `{SetOrder} st :
  moves_made (round st) = moves_made st
  ∧ mines (round st) = mines st ∪ all_mines (knowledge st)
  ∧ safes (round st) = safes st ∪ all_safes (knowledge st).
Proof.
  unfold round, resolved. simpl.
  set (l1 := iter_set (all_safes (knowledge st))).
  set (l2 := iter_set (all_mines (knowledge st))).
  destruct (foldl_with_mine_fields l2 (foldl (λ st c, with_safe c st) st l1))
    as (-> & -> & ->).
  destruct (foldl_with_safe_fields l1 st) as (-> & -> & ->).
  unfold l1, l2. by rewrite !list_to_set_iter_set.
Qed.

Lemma closure_grows `{SetOrder} fuel st st' :
  closure fuel st = Ok (tt, st') →
  (height st' = height st ∧ width st' = width st)
  ∧ moves_made st' = moves_made st
  ∧ mines st ⊆ mines st'
  ∧ safes st ⊆ safes st'.
Proof.
  apply (closure_preserves
           (λ st1, (height st1 = height st ∧ width st1 = width st)
                   ∧ moves_made st1 = moves_made st
                   ∧ mines st ⊆ mines st1 ∧ safes st ⊆ safes st1)).
  - intros st1 ([Hh Hw] & Hmv & Hm & Hs) _.
    destruct (round_board st1) as [-> ->].
    destruct (round_fields st1) as (-> & -> & ->).
    split; [done|]. split; [done|]. set_solver.
  - done.
Qed.

(** X1. A call of [add_knowledge] that returns keeps the size of the
    board, adds exactly the observed cell to [moves_made], adds it to
    [safes], and removes nothing from [safes] or [mines]. *)
Theorem add_knowledge_grows `{SetOrder} (fuel : nat) (cell : Cell) (n : Z)
    (st st' : AI) :
  add_knowledge fuel cell n st = Ok (tt, st') →
  (height st' = height st ∧ width st' = width st)
  ∧ moves_made st' = moves_made st ∪ {[cell]}
  ∧ cell ∈ safes st'
  ∧ safes st ⊆ safes st'
  ∧ mines st ⊆ mines st'.
Proof.
  rewrite add_knowledge_run.
  intros ([Hh Hw] & Hmv & Hm & Hs)%closure_grows.
  unfold observed in *. cbn in *.
  split; [done|]. split; [done|]. set_solver.
Qed.

Lemma add_knowledge_grows_witness :
  add_knowledge 1 (0, 1) 1 after_one_report = Ok (tt, after_two_reports)
  ∧ (height after_two_reports = height after_one_report
     ∧ width after_two_reports = width after_one_report)
  ∧ moves_made after_two_reports = moves_made after_one_report ∪ {[ (0, 1) ]}
  ∧ (0, 1) ∈ safes after_two_reports
  ∧ safes after_one_report ⊆ safes after_two_reports
  ∧ mines after_one_report ⊆ mines after_two_reports.
Proof.
  assert (add_knowledge 1 (0, 1) 1 after_one_report
          = Ok (tt, after_two_reports)) as Hrun by (vm_compute; reflexivity).
  split; [exact Hrun|].
  exact (add_knowledge_grows 1%nat (0, 1) 1 after_one_report
           after_two_reports Hrun).
Defined.

(** ** The loop ends at a fixed point *)

Lemma settled_sentence st s :
  settled st → s ∈ knowledge st → safes_of s = ∅ ∧ mines_of s = ∅.
Proof.
  intros [Hs Hm] Hin. split; apply set_eq; intros c; split; [|set_solver| |set_solver].
  - intros Hc. rewrite <- Hs. apply elem_of_all_safes. eauto.
  - intros Hc. rewrite <- Hm. apply elem_of_all_mines. eauto.
Qed.

(** X2. When [add_knowledge] returns, no sentence held has anything
    left to tell: [known_safes] and [known_mines] of every sentence are
    empty, and running the loop again returns at once with the same
    state. *)
Theorem add_knowledge_fixed_point `{SetOrder} (fuel : nat) (cell : Cell) (n : Z)
    (st st' : AI) :
  add_knowledge fuel cell n st = Ok (tt, st') →
  (∀ s, s ∈ knowledge st' →
        known_safes s = Ok (∅, s) ∧ known_mines s = Ok (∅, s))
  ∧ (∀ fuel', closure (S fuel') st' = Ok (tt, st')).
Proof.
  rewrite add_knowledge_run. intros Hst%closure_settled. split.
  - intros s Hs. destruct (settled_sentence st' s Hst Hs) as [E1 E2].
    by rewrite known_safes_run, known_mines_run, E1, E2.
  - intros fuel'. by apply closure_of_settled.
Qed.

Lemma add_knowledge_fixed_point_witness :
  add_knowledge 2 (0, 0) 1 (AI_init 1 2) = Ok (tt, after_first_report_1x2)
  ∧ (∀ s, s ∈ knowledge after_first_report_1x2 →
          known_safes s = Ok (∅, s) ∧ known_mines s = Ok (∅, s))
  ∧ (∀ fuel', closure (S fuel') after_first_report_1x2
              = Ok (tt, after_first_report_1x2)).
Proof.
  assert (add_knowledge 2 (0, 0) 1 (AI_init 1 2)
          = Ok (tt, after_first_report_1x2)) as Hrun by (vm_compute; reflexivity).
  split; [exact Hrun|].
  exact (add_knowledge_fixed_point 2%nat (0, 0) 1 (AI_init 1 2)
           after_first_report_1x2 Hrun).
Defined.

(** ** What the loop resolves *)

Lemma closure_resolves `{SetOrder} fuel st st' :
  closure fuel st = Ok (tt, st') →
  all_safes (knowledge st) ⊆ safes st' ∧ all_mines (knowledge st) ⊆ mines st'.
Proof.
  destruct fuel as [|fuel]; [done|]. rewrite closure_S.
  destruct (decide (settled st)) as [[Hs Hm]|_].
  - intros [= <-]. rewrite Hs, Hm. set_solver.
  - intros (_ & _ & Hm & Hs)%closure_grows.
    destruct (round_fields st) as (_ & Em & Es). rewrite Em in Hm.
    rewrite Es in Hs. set_solver.
Qed.

(** X3. The loop resolves what each sentence it starts from tells: when
    it returns, the cells of every sentence that had count 0 are in
    [safes], and the cells of every sentence that had as many cells as
    its count, the count not being 0, are in [mines]. *)
Theorem closure_resolves_sentences `{SetOrder} (fuel : nat) (st st' : AI) :
  closure fuel st = Ok (tt, st') →
  ∀ s, s ∈ knowledge st →
       (count s = 0 → cells s ⊆ safes st')
       ∧ (Z.of_nat (size (cells s)) = count s → count s ≠ 0 →
          cells s ⊆ mines st').
Proof.
  intros [Hs Hm]%closure_resolves s Hin. split.
  - intros H0 c Hc. apply Hs, elem_of_all_safes. exists s. split; [done|].
    unfold safes_of. by rewrite decide_True.
  - intros Hsz Hne c Hc. apply Hm, elem_of_all_mines. exists s. split; [done|].
    unfold mines_of. by rewrite decide_True.
Qed.

Lemma closure_resolves_sentences_witness :
  closure 2 (observed (0, 0) 1 (AI_init 1 2)) = Ok (tt, after_first_report_1x2)
  ∧ ∀ s, s ∈ knowledge (observed (0, 0) 1 (AI_init 1 2)) →
         (count s = 0 → cells s ⊆ safes after_first_report_1x2)
         ∧ (Z.of_nat (size (cells s)) = count s → count s ≠ 0 →
            cells s ⊆ mines after_first_report_1x2).
Proof.
  assert (closure 2 (observed (0, 0) 1 (AI_init 1 2))
          = Ok (tt, after_first_report_1x2)) as Hrun by (vm_compute; reflexivity).
  split; [exact Hrun|].
  exact (closure_resolves_sentences 2%nat _ after_first_report_1x2 Hrun).
Defined.

Lemma observed_fields cell n st :
  (height (observed cell n st) = height st
   ∧ width (observed cell n st) = width st)
  ∧ moves_made (observed cell n st) = moves_made st ∪ {[cell]}
  ∧ mines (observed cell n st) = mines st
  ∧ safes (observed cell n st) = safes st ∪ {[cell]}
  ∧ knowledge (observed cell n st)
    = (without_safe cell <$> knowledge st) ++ [observation cell n st].
Proof. done. Qed.

Lemma observation_cells cell n st c :
  c ∈ cells (observation cell n st) ↔
  c ∈ block cell ∧ c ≠ cell ∧ in_bounds (height st) (width st) c
  ∧ (c ∉ safes st) ∧ (c ∉ mines st).
Proof.
  unfold observation, Sentence_init. cbn [cells].
  rewrite look_at_cells. cbn. set_solver.
Qed.

Lemma observation_count cell n st :
  count (observation cell n st)
  = n - Z.of_nat (length (filter (λ c, c ∈ mines st) (block cell))).
Proof.
  unfold observation, Sentence_init. cbn [count]. by rewrite look_at_count.
Qed.

(** X4. When the reported count is the number of cells around the
    observed cell (the cell itself included) that are already in
    [mines], every cell around it that is on the board is, after the
    call, in [safes] unless it was in [mines]. *)
Theorem add_knowledge_zero_count `{SetOrder} (fuel : nat) (cell : Cell) (n : Z)
    (st st' : AI) :
  add_knowledge fuel cell n st = Ok (tt, st') →
  n = Z.of_nat (length (filter (λ c, c ∈ mines st) (block cell))) →
  ∀ c, c ∈ block cell → in_bounds (height st) (width st) c →
       c ∈ safes st' ∨ c ∈ mines st.
Proof.
  rewrite add_knowledge_run. intros Hrun Hn c Hc Hb.
  destruct (decide (c ∈ mines st)) as [|Hm]; [by right | left].
  pose proof (closure_grows _ _ _ Hrun) as (_ & _ & _ & Hs).
  pose proof (closure_resolves _ _ _ Hrun) as [Hall _].
  destruct (observed_fields cell n st) as (_ & _ & _ & Es & Ek).
  rewrite Es in Hs. rewrite Ek in Hall.
  destruct (decide (c ∈ safes st ∪ {[cell]})) as [Hin|Hout]; [by apply Hs|].
  apply Hall, elem_of_all_safes. exists (observation cell n st). split.
  - apply elem_of_app. right. by apply list_elem_of_singleton.
  - unfold safes_of. rewrite observation_count, decide_True by lia.
    assert (c ≠ cell ∧ c ∉ safes st) as [? ?] by (clear -Hout; set_solver).
    apply observation_cells. tauto.
Qed.

Lemma add_knowledge_zero_count_witness :
  add_knowledge 2 (1, 1) 0 (AI_init 2 2) = Ok (tt, all_safe_2x2)
  ∧ 0 = Z.of_nat (length (filter (λ c, c ∈ mines (AI_init 2 2)) (block (1, 1))))
  ∧ ∀ c, c ∈ block (1, 1) →
         in_bounds (height (AI_init 2 2)) (width (AI_init 2 2)) c →
         c ∈ safes all_safe_2x2 ∨ c ∈ mines (AI_init 2 2).
Proof.
  assert (add_knowledge 2 (1, 1) 0 (AI_init 2 2) = Ok (tt, all_safe_2x2))
    as Hrun by (vm_compute; reflexivity).
  assert (0 = Z.of_nat (length (filter (λ c, c ∈ mines (AI_init 2 2))
                                       (block (1, 1))))) as Hn
    by (vm_compute; reflexivity).
  split; [exact Hrun|]. split; [exact Hn|].
  exact (add_knowledge_zero_count 2%nat (1, 1) 0 (AI_init 2 2) all_safe_2x2
           Hrun Hn).
Defined.

(** ** Everything stays on the board *)

Lemma on_board_round `{SetOrder} h w st : on_board h w st → on_board h w (round st).
Proof.
  intros ([Hh Hw] & Hmv & Hk & Hm & Hs).
  destruct (round_board st) as [Eh Ew].
  destruct (round_fields st) as (Emv & Em & Es).
  pose proof (all_safes_subseteq (knowledge st)) as HS.
  pose proof (all_mines_subseteq (knowledge st)) as HM.
  split; [by rewrite Eh, Ew|]. rewrite Emv, Em, Es. split; [set_solver|].
  split; [|split].
  - intros c Hc. apply Hk. rewrite cells_in_round, cells_in_resolved in Hc.
    set_solver.
  - intros c [Hc|Hc]%elem_of_union; [by apply Hm | apply Hk, HM, Hc].
  - intros c [Hc|Hc]%elem_of_union; [by apply Hs | right; apply Hk, HS, Hc].
Qed.

Lemma on_board_observed h w cell n st :
  on_board h w st → on_board h w (observed cell n st).
Proof.
  intros ([Hh Hw] & Hmv & Hk & Hm & Hs).
  destruct (observed_fields cell n st) as ([Eh Ew] & Emv & Em & Es & Ek).
  unfold on_board. rewrite Eh, Ew, Emv, Em, Es, Ek. clear Eh Ew Emv Em Es Ek.
  split; [done|]. split; [clear -Hmv; set_solver|]. split; [|split].
  - intros c. rewrite cells_in_app, elem_of_union, cells_in_without_safe.
    intros [Hc|Hc]; [apply Hk; clear -Hc; set_solver|].
    unfold cells_in in Hc. cbn [fmap list_fmap union_list foldr] in Hc.
    rewrite (right_id_L ∅ (∪)) in Hc.
    apply observation_cells in Hc as (_ & _ & Hb & _). by rewrite Hh, Hw in Hb.
  - done.
  - intros c [Hc| ->%elem_of_singleton]%elem_of_union;
      [|left; clear; set_solver].
    destruct (Hs c Hc) as [Hmade|?]; [left; clear -Hmade; set_solver | by right].
Qed.

Lemma reachable_on_board `{SetOrder} h w st : reachable h w st → on_board h w st.
Proof.
  induction 1 as [|st fuel cell n st' _ IH Hadd].
  - split; [done|]. split; [done|].
    split; [|split]; intros c Hc; cbn in Hc; by apply not_elem_of_empty in Hc.
  - rewrite add_knowledge_run in Hadd. revert Hadd.
    apply (closure_preserves (on_board h w)).
    + intros st0 H0 _. by apply on_board_round.
    + by apply on_board_observed.
Qed.

(** X5. After any sequence of calls of [add_knowledge] on an agent
    created for an [h] by [w] board, the agent still has that size,
    every move made is in [safes], every cell of a sentence and every
    cell of [mines] is on the board, and so is every cell of [safes]
    that is not a move made. *)
Theorem reachable_stays_on_board `{SetOrder} (h w : Z) (st : AI) :
  reachable h w st →
  (height st = h ∧ width st = w)
  ∧ moves_made st ⊆ safes st
  ∧ (∀ s c, s ∈ knowledge st → c ∈ cells s → in_bounds h w c)
  ∧ (∀ c, c ∈ mines st → in_bounds h w c)
  ∧ (∀ c, c ∈ safes st → c ∉ moves_made st → in_bounds h w c).
Proof.
  intros (Hd & Hmv & Hk & Hm & Hs)%reachable_on_board.
  split; [done|]. split; [done|]. split; [|split; [done|]].
  - intros s c Hin Hc. apply Hk, elem_of_cells_in. eauto.
  - intros c Hc Hn. by destruct (Hs c Hc).
Qed.

Lemma reachable_stays_on_board_witness :
  reachable 2 2 after_two_reports
  ∧ (height after_two_reports = 2 ∧ width after_two_reports = 2)
  ∧ moves_made after_two_reports ⊆ safes after_two_reports
  ∧ (∀ s c, s ∈ knowledge after_two_reports → c ∈ cells s → in_bounds 2 2 c)
  ∧ (∀ c, c ∈ mines after_two_reports → in_bounds 2 2 c)
  ∧ (∀ c, c ∈ safes after_two_reports → c ∉ moves_made after_two_reports →
          in_bounds 2 2 c).
Proof.
  assert (reachable 2 2 after_two_reports) as Hreach.
  { apply (reach_add 2 2 after_one_report 1%nat (0, 1) 1);
      [|vm_compute; reflexivity].
    apply (reach_add 2 2 (AI_init 2 2) 1%nat (1, 1) 1);
      [|vm_compute; reflexivity].
    apply reach_init. }
  split; [exact Hreach|].
  exact (reachable_stays_on_board 2 2 after_two_reports Hreach).
Defined.

(** ** A bound on the number of rounds *)

Lemma elem_of_board_cells h w c : c ∈ board_cells h w ↔ in_bounds h w c.
Proof.
  unfold board_cells, in_bounds. rewrite list_elem_of_bind. split.
  - intros (i & (j & ->%list_elem_of_singleton & Hj%elem_of_seqZ)%list_elem_of_bind
              & Hi%elem_of_seqZ). simpl. lia.
  - intros [Hi Hj]. exists c.1. split; [|apply elem_of_seqZ; lia].
    apply list_elem_of_bind. exists c.2. split; [|apply elem_of_seqZ; lia].
    apply list_elem_of_singleton. by destruct c.
Qed.

Lemma length_pairs (l1 l2 : list Z) :
  length (i ← l1; j ← l2; [(i, j)]) = (length l1 * length l2)%nat.
Proof.
  induction l1 as [|i l1 IH]; [done|]. cbn. rewrite length_app, IH. f_equal.
  clear. induction l2 as [|j l2 IH]; [done|]. cbn. by rewrite IH.
Qed.

Lemma length_board_cells h w :
  length (board_cells h w) = (Z.to_nat h * Z.to_nat w)%nat.
Proof. unfold board_cells. by rewrite length_pairs, !length_seqZ. Qed.

Lemma size_on_board (h w : Z) (X : gset Cell) :
  (∀ c, c ∈ X → in_bounds h w c) → (size X ≤ Z.to_nat h * Z.to_nat w)%nat.
Proof.
  intros HX. rewrite <- length_board_cells.
  transitivity (size (list_to_set (board_cells h w) : gset Cell)).
  - apply subseteq_size. intros c Hc.
    by apply elem_of_list_to_set, elem_of_board_cells, HX.
  - clear. induction (board_cells h w) as [|c l IH].
    + cbn. by rewrite size_empty.
    + cbn [list_to_set length]. rewrite size_union_alt, size_singleton.
      assert (size (list_to_set l ∖ {[c]} : gset Cell)
              ≤ size (list_to_set l : gset Cell))%nat
        by (apply subseteq_size; set_solver).
      lia.
Qed.

(** X6. On an agent reached from a fresh one for an [h] by [w] board,
    every call of [add_knowledge] returns within [h * w + 1] rounds of
    its loop. *)
Theorem add_knowledge_rounds_bounded `{SetOrder} (h w : Z) (st : AI)
    (cell : Cell) (n : Z) :
  reachable h w st →
  ∃ st', add_knowledge (S (Z.to_nat h * Z.to_nat w)) cell n st = Ok (tt, st').
Proof.
  intros Hst%reachable_on_board. rewrite add_knowledge_run.
  apply closure_enough.
  destruct (on_board_observed h w cell n st Hst) as (_ & _ & Hk & _).
  pose proof (size_on_board h w _ Hk). lia.
Qed.

Lemma add_knowledge_rounds_bounded_witness :
  reachable 2 2 after_one_report
  ∧ ∃ st', add_knowledge (S (Z.to_nat 2 * Z.to_nat 2)) (0, 1) 1 after_one_report
           = Ok (tt, st').
Proof.
  assert (reachable 2 2 after_one_report) as Hreach.
  { apply (reach_add 2 2 (AI_init 2 2) 1%nat (1, 1) 1);
      [|vm_compute; reflexivity].
    apply reach_init. }
  split; [exact Hreach|].
  exact (add_knowledge_rounds_bounded 2 2 after_one_report (0, 1) 1 Hreach).
Defined.

(** ** Honest games *)

Lemma played_reachable `{SetOrder} g st :
  played g st → reachable (Minesweeper.height g) (Minesweeper.width g) st.
Proof.
  induction 1 as [|st fuel cell n st' _ IH _ _ Hadd]; [apply reach_init|].
  by eapply reach_add.
Qed.

(** X7. In a game where every report comes from the board, every
    sentence held counts exactly the mines of the board among its cells;
    its count is therefore between 0 and the number of its cells. *)
Theorem played_sentences_true `{SetOrder} (g : Minesweeper.game) (st : AI) :
  played g st →
  ∀ s, s ∈ knowledge st →
       count s = Z.of_nat (size (filter (real_mine g) (cells s)))
       ∧ 0 ≤ count s ≤ Z.of_nat (size (cells s)).
Proof.
  intros (_ & _ & _ & Hk)%played_agrees s Hs. specialize (Hk s Hs).
  unfold true_of in Hk. split; [done|]. rewrite Hk.
  assert (size (filter (real_mine g) (cells s)) ≤ size (cells s))%nat
    by (apply subseteq_size; set_solver).
  lia.
Qed.

Lemma played_sentences_true_witness :
  played board_2x2 after_two_reports
  ∧ ∀ s, s ∈ knowledge after_two_reports →
         count s = Z.of_nat (size (filter (real_mine board_2x2) (cells s)))
         ∧ 0 ≤ count s ≤ Z.of_nat (size (cells s)).
Proof.
  assert (played board_2x2 after_two_reports) as Hplayed.
  { apply (played_add board_2x2 after_one_report 1%nat (0, 1) 1);
      [|vm_compute; reflexivity..].
    apply (played_add board_2x2 (AI_init 2 2) 1%nat (1, 1) 1);
      [|vm_compute; reflexivity..].
    apply played_init. }
  split; [exact Hplayed|].
  exact (played_sentences_true board_2x2 after_two_reports Hplayed).
Defined.

Lemma is_mine_Ok g cell b g' :
  0 ≤ cell.1 → 0 ≤ cell.2 →
  Minesweeper.is_mine cell g = Ok (b, g') → mine_at g cell = b ∧ g' = g.
Proof.
  destruct cell as [i j]. unfold Minesweeper.is_mine, bind, get. simpl.
  intros Hi Hj Hl.
  destruct (list_get (Minesweeper.board g) i g) as [[row g1]| |] eqn:E1; [|done..].
  apply list_get_Ok in E1 as [E1 ->]; [|done].
  apply list_get_Ok in Hl as [E2 ->]; [|done].
  unfold mine_at. simpl. by rewrite E1, E2.
Qed.

(** X8. In a game where every report comes from the board, the cell
    that [make_safe_move] returns is on the board, has not been played,
    and holds no mine: [is_mine] of the board does not return [True]
    for it. *)
Theorem safe_move_is_safe `{SetOrder} (g : Minesweeper.game) (st st' : AI)
    (c : Cell) :
  played g st →
  make_safe_move st = Ok (Some c, st') →
  in_bounds (Minesweeper.height g) (Minesweeper.width g) c
  ∧ (c ∉ moves_made st)
  ∧ (∀ g', Minesweeper.is_mine c g ≠ Ok (true, g')).
Proof.
  intros Hplayed Hmove.
  assert (c ∈ safes st ∧ c ∉ moves_made st) as [Hs Hn].
  { unfold make_safe_move, bind, get, ret in Hmove.
    injection Hmove as Hc _. apply first_not_made_Some in Hc as [Hc ?].
    by apply elem_of_iter_set in Hc. }
  pose proof (reachable_on_board _ _ _ (played_reachable g st Hplayed))
    as (_ & _ & _ & _ & Hb).
  destruct (Hb c Hs) as [?|Hin]; [done|].
  split; [done|]. split; [done|]. intros g' Hm.
  apply is_mine_Ok in Hm as [Hm _]; [|apply Hin..].
  destruct (played_agrees g st Hplayed) as (_ & _ & Hsafe & _).
  by apply (Hsafe c Hs).
Qed.

Lemma safe_move_is_safe_witness :
  played board_2x3 after_far_corner_2x3
  ∧ make_safe_move after_far_corner_2x3 = Ok (Some (0, 2), after_far_corner_2x3)
  ∧ in_bounds (Minesweeper.height board_2x3) (Minesweeper.width board_2x3) (0, 2)
  ∧ ((0, 2) ∉ moves_made after_far_corner_2x3)
  ∧ (∀ g', Minesweeper.is_mine (0, 2) board_2x3 ≠ Ok (true, g')).
Proof.
  assert (played board_2x3 after_far_corner_2x3) as Hplayed.
  { apply (played_add board_2x3 (AI_init 2 3) 2%nat (1, 2) 0);
      [|vm_compute; reflexivity..].
    apply played_init. }
  assert (make_safe_move after_far_corner_2x3
          = Ok (Some (0, 2), after_far_corner_2x3)) as Hmove
    by (vm_compute; reflexivity).
  split; [exact Hplayed|]. split; [exact Hmove|].
  exact (safe_move_is_safe board_2x3 after_far_corner_2x3 after_far_corner_2x3
           (0, 2) Hplayed Hmove).
Defined.

(** ** The order of enumeration does not matter *)

Lemma sentence_eq (a b : Sentence) :
  cells a = cells b → count a = count b → a = b.
Proof. destruct a, b. simpl. by intros -> ->. Qed.

Lemma without_safe_comm c1 c2 s :
  without_safe c1 (without_safe c2 s) = without_safe c2 (without_safe c1 s).
Proof.
  apply sentence_eq.
  - rewrite !cells_without_safe. set_solver.
  - unfold without_safe. repeat (destruct (decide _); simpl); done.
Qed.

Lemma count_without_mine c s :
  count (without_mine c s) = count s - (if decide (c ∈ cells s) then 1 else 0).
Proof. unfold without_mine. destruct (decide _); simpl; lia. Qed.

Lemma without_mine_comm c1 c2 s :
  without_mine c1 (without_mine c2 s) = without_mine c2 (without_mine c1 s).
Proof.
  apply sentence_eq.
  - rewrite !cells_without_mine. set_solver.
  - rewrite !count_without_mine, !cells_without_mine.
    destruct (decide (c1 = c2)) as [->|Hne]; [done|].
    repeat case_decide; first [lia | exfalso; set_solver].
Qed.

Lemma with_safe_comm c1 c2 st :
  with_safe c1 (with_safe c2 st) = with_safe c2 (with_safe c1 st).
Proof.
  unfold with_safe. simpl. f_equal; [set_solver|].
  rewrite <- !list_fmap_compose. apply list_fmap_ext. intros _ s _.
  apply without_safe_comm.
Qed.

Lemma with_mine_comm c1 c2 st :
  with_mine c1 (with_mine c2 st) = with_mine c2 (with_mine c1 st).
Proof.
  unfold with_mine. simpl. f_equal; [set_solver|].
  rewrite <- !list_fmap_compose. apply list_fmap_ext. intros _ s _.
  apply without_mine_comm.
Qed.

Lemma foldl_comm_perm {A B : Type} (f : A → B → A) (l1 l2 : list B) :
  (∀ a x y, f (f a x) y = f (f a y) x) →
  l1 ≡ₚ l2 → ∀ a, foldl f a l1 = foldl f a l2.
Proof.
  intros Hf. induction 1 as [|x l1 l2 _ IH|x y l|l1 l2 l3 _ IH1 _ IH2];
    intros a; simpl.
  - done.
  - apply IH.
  - by rewrite Hf.
  - by rewrite IH1.
Qed.

Lemma iter_set_any_order (O1 O2 : SetOrder) (X : gset Cell) :
  @iter_set O1 X ≡ₚ @iter_set O2 X.
Proof. by rewrite !iter_set_perm. Qed.

Lemma round_any_order (O1 O2 : SetOrder) st : @round O1 st = @round O2 st.
Proof.
  unfold round. assert (@resolved O1 st = @resolved O2 st) as ->; [|done].
  unfold resolved.
  rewrite (foldl_comm_perm (λ st c, with_safe c st) _
             (@iter_set O2 (all_safes (knowledge st))));
    [|intros; apply with_safe_comm | apply iter_set_any_order].
  apply foldl_comm_perm; [intros; apply with_mine_comm | apply iter_set_any_order].
Qed.

(** X9. The result of [add_knowledge] does not depend on the order in
    which the sets are enumerated: under any two orders the call returns
    the same state, or runs out of rounds under both. *)
Theorem add_knowledge_any_order (O1 O2 : SetOrder) (fuel : nat) (cell : Cell)
    (n : Z) (st : AI) :
  @add_knowledge O1 fuel cell n st = @add_knowledge O2 fuel cell n st.
Proof.
  rewrite !add_knowledge_run. generalize (observed cell n st). clear st.
  induction fuel as [|fuel IH]; intros st; [done|].
  rewrite !closure_S. destruct (decide (settled st)); [done|].
  rewrite (round_any_order O1 O2). apply IH.
Qed.

(** X10. Marking two cells safe, or two cells as mines, gives the same
    state in either order. *)
Theorem marks_commute (c1 c2 : Cell) (st : AI) :
  (mark_safe c1 >> mark_safe c2) st = (mark_safe c2 >> mark_safe c1) st
  ∧ (mark_mine c1 >> mark_mine c2) st = (mark_mine c2 >> mark_mine c1) st.
Proof.
  unfold bind. rewrite !mark_safe_run, !mark_mine_run.
  by rewrite (with_safe_comm c2 c1), (with_mine_comm c2 c1).
Qed.

Lemma without_mine_after_safe c s :
  without_mine c (without_safe c s) = without_safe c s.
Proof.
  unfold without_mine. rewrite decide_False; [done|].
  rewrite cells_without_safe. set_solver.
Qed.

Lemma without_safe_after_mine c s :
  without_safe c (without_mine c s) = without_mine c s.
Proof.
  unfold without_safe. rewrite decide_False; [done|].
  rewrite cells_without_mine. set_solver.
Qed.

(** X11. The first mark of a cell decides what the sentences become:
    marking a cell as a mine after it was marked safe only adds it to
    [mines] and lowers no count, and marking it safe after it was marked
    as a mine only adds it to [safes]; the cell is then in both sets. *)
Theorem second_mark_changes_no_sentence (c : Cell) (st : AI) :
  (mark_safe c >> mark_mine c) st
  = Ok (tt, {| height := height st; width := width st;
               moves_made := moves_made st;
               mines := mines st ∪ {[c]}; safes := safes st ∪ {[c]};
               knowledge := without_safe c <$> knowledge st |})
  ∧ (mark_mine c >> mark_safe c) st
    = Ok (tt, {| height := height st; width := width st;
                 moves_made := moves_made st;
                 mines := mines st ∪ {[c]}; safes := safes st ∪ {[c]};
                 knowledge := without_mine c <$> knowledge st |}).
Proof.
  unfold bind. split.
  - rewrite mark_safe_run, mark_mine_run. unfold with_mine, with_safe. simpl.
    do 3 f_equal. rewrite <- list_fmap_compose. apply list_fmap_ext.
    intros _ s _. apply without_mine_after_safe.
  - rewrite mark_mine_run, mark_safe_run. unfold with_mine, with_safe. simpl.
    do 3 f_equal. rewrite <- list_fmap_compose. apply list_fmap_ext.
    intros _ s _. apply without_safe_after_mine.
Qed.

(** ** Subset inference in a round that runs *)




(** ** Choosing a random move *)

Lemma consider_row st i acc (js : list Z) :
  foldl (consider st i) acc js
  = acc ++ filter (possible_move st) (j ← js; [(i, j)]).
Proof.
  revert acc. induction js as [|j js IH]; intros acc; cbn.
  - by rewrite (right_id_L [] (++)).
  - rewrite IH. unfold consider.
    destruct (decide (possible_move st (i, j))) as [Hp|Hp].
    + rewrite decide_True by exact Hp. by rewrite <- (assoc_L (++)).
    + by rewrite decide_False by exact Hp.
Qed.

Lemma consider_rows st acc (rows js : list Z) :
  foldl (λ acc i, foldl (consider st i) acc js) acc rows
  = acc ++ filter (possible_move st) (i ← rows; j ← js; [(i, j)]).
Proof.
  revert acc. induction rows as [|i rows IH]; intros acc; cbn.
  - by rewrite (right_id_L [] (++)).
  - rewrite IH, consider_row, filter_app. by rewrite <- (assoc_L (++)).
Qed.

Lemma make_random_move_run r st :
  make_random_move r st
  = (let possibleMoves :=
       filter (possible_move st) (board_cells (height st) (width st)) in
     if decide (length possibleMoves = 0%nat) then Ok (None, st)
     else match possibleMoves !! (r mod length possibleMoves)%nat with
          | Some c => Ok (Some c, st)
          | None => Raise IndexError
          end).
Proof.
  unfold make_random_move, bind, get. rewrite consider_rows. cbn [app].
  fold (board_cells (height st) (width st)). cbv zeta.
  destruct (decide _); [done|]. unfold random_choice, ret, raise.
  by destruct (_ !! _).
Qed.

(** X13. [make_random_move] never raises and leaves the state as it
    was.  It returns [None] exactly when every cell of the board is in
    [mines] or in [moves_made]; a cell that it returns is on the board
    and is neither in [mines] nor in [moves_made]. *)
Theorem make_random_move_spec (r : nat) (st : AI) :
  ∃ res, make_random_move r st = Ok (res, st)
         ∧ (res = None ↔
            ∀ c, in_bounds (height st) (width st) c →
                 c ∈ mines st ∨ c ∈ moves_made st)
         ∧ (∀ c, res = Some c →
                 in_bounds (height st) (width st) c
                 ∧ (c ∉ mines st) ∧ (c ∉ moves_made st)).
Proof.
  rewrite make_random_move_run. cbv zeta.
  set (l := filter (possible_move st) (board_cells (height st) (width st))).
  assert (∀ c, c ∈ l ↔ in_bounds (height st) (width st) c
                       ∧ (c ∉ mines st) ∧ (c ∉ moves_made st)) as Hl.
  { intros c. unfold l. rewrite list_elem_of_filter, elem_of_board_cells.
    unfold possible_move. tauto. }
  destruct (decide (length l = 0%nat)) as [H0|Hpos].
  - exists None. split; [done|]. split; [|done]. split; [|done].
    intros _ c Hb. apply nil_length_inv in H0.
    destruct (decide (c ∈ mines st)); [by left|].
    destruct (decide (c ∈ moves_made st)); [by right|].
    assert (c ∈ l) as Hc by (apply Hl; done). rewrite H0 in Hc.
    by apply elem_of_nil in Hc.
  - assert (r mod length l < length l)%nat as Hlt by (apply Nat.mod_upper_bound; lia).
    destruct (lookup_lt_is_Some_2 l _ Hlt) as [c Hc]. rewrite Hc.
    exists (Some c). split; [done|].
    assert (c ∈ l) as Hin by (by eapply list_elem_of_lookup_2).
    split.
    + split; [done|]. intros Hall. apply Hl in Hin as (Hb & ? & ?).
      destruct (Hall c Hb); done.
    + intros c' [= <-]. by apply Hl.
Qed.

(** X14. Every cell of the board that is neither in [mines] nor in
    [moves_made] is returned by [make_random_move] for some draw. *)
Theorem make_random_move_reaches (st : AI) (c : Cell) :
  in_bounds (height st) (width st) c →
  c ∉ mines st → c ∉ moves_made st →
  ∃ r, make_random_move r st = Ok (Some c, st).
Proof.
  intros Hb Hm Hn.
  set (l := filter (possible_move st) (board_cells (height st) (width st))).
  assert (c ∈ l) as Hin.
  { unfold l. rewrite list_elem_of_filter, elem_of_board_cells. by split. }
  apply list_elem_of_lookup_1 in Hin as [i Hi].
  pose proof (lookup_lt_Some _ _ _ Hi) as Hlt.
  exists i. rewrite make_random_move_run. cbv zeta. fold l.
  rewrite decide_False by lia. rewrite Nat.mod_small by done. by rewrite Hi.
Qed.

Lemma make_random_move_reaches_witness :
  in_bounds (height after_far_corner_2x3) (width after_far_corner_2x3) (0, 0)
  ∧ ((0, 0) ∉ mines after_far_corner_2x3)
  ∧ ((0, 0) ∉ moves_made after_far_corner_2x3)
  ∧ ∃ r, make_random_move r after_far_corner_2x3
         = Ok (Some (0, 0), after_far_corner_2x3).
Proof.
  assert (in_bounds (height after_far_corner_2x3) (width after_far_corner_2x3)
            (0, 0)) as Hb by compute_done.
  assert ((0, 0) ∉ mines after_far_corner_2x3) as Hm by compute_done.
  assert ((0, 0) ∉ moves_made after_far_corner_2x3) as Hn by compute_done.
  split; [exact Hb|]. split; [exact Hm|]. split; [exact Hn|].
  exact (make_random_move_reaches after_far_corner_2x3 (0, 0) Hb Hm Hn).
Defined.

(** ** The board's own functions *)

Lemma list_get_in_range {St A : Type} (l : list A) i (s : St) :
  0 ≤ i < Z.of_nat (length l) →
  ∃ x, list_get l i s = Ok (x, s) ∧ l !! Z.to_nat i = Some x.
Proof.
  intros Hi. unfold list_get. destruct (decide (i < 0)); [lia|].
  rewrite decide_True by lia.
  destruct (lookup_lt_is_Some_2 l (Z.to_nat i)) as [x Hx]; [lia|].
  rewrite Hx. by exists x.
Qed.

Lemma list_get_out_of_range {St A : Type} (l : list A) i (s : St) :
  Z.of_nat (length l) ≤ i ∨ i < - Z.of_nat (length l) →
  list_get l i s = Raise IndexError.
Proof.
  intros Hi. unfold list_get. destruct (decide (i < 0)).
  - rewrite decide_False by lia. done.
  - rewrite decide_True by lia. rewrite lookup_ge_None_2 by lia. done.
Qed.

Lemma list_get_negative {St A : Type} (l : list A) i (s : St) :
  - Z.of_nat (length l) ≤ i < 0 →
  list_get l i s = list_get l (i + Z.of_nat (length l)) s.
Proof.
  intros Hi. unfold list_get. rewrite (decide_True (P := i < 0)) by lia.
  rewrite (decide_False (P := i + _ < 0)) by lia. done.
Qed.

Lemma well_formed_row g i :
  well_formed g → 0 ≤ i < Minesweeper.height g →
  ∃ row, Minesweeper.board g !! Z.to_nat i = Some row
         ∧ length row = Z.to_nat (Minesweeper.width g).
Proof.
  intros [Hlen Hrows] Hi.
  destruct (lookup_lt_is_Some_2 (Minesweeper.board g) (Z.to_nat i)) as [row Hrow];
    [lia|].
  exists row. split; [done|]. apply Hrows. by eapply list_elem_of_lookup_2.
Qed.

Lemma is_mine_in_bounds g cell :
  well_formed g →
  in_bounds (Minesweeper.height g) (Minesweeper.width g) cell →
  Minesweeper.is_mine cell g = Ok (mine_at g cell, g).
Proof.
  intros Hwf [Hi Hj]. destruct cell as [i j]. simpl in *.
  destruct (well_formed_row g i Hwf Hi) as (row & Hrow & Hlen).
  unfold Minesweeper.is_mine, bind, get.
  destruct (list_get_in_range (Minesweeper.board g) i g) as (row' & -> & Hrow');
    [destruct Hwf; lia|].
  assert (row' = row) as -> by congruence.
  destruct (list_get_in_range row j g) as (b & -> & Hb); [lia|].
  unfold mine_at. simpl. by rewrite Hrow, Hb.
Qed.

Lemma nearby_mines_returns g cell l acc :
  well_formed g →
  ∃ n, for_acc l
         (λ count c,
            if decide (c = cell) then ret count
            else if decide (in_bounds (Minesweeper.height g) (Minesweeper.width g) c) then
              let* row := list_get (Minesweeper.board g) c.1 in
              let* is_set := list_get row c.2 in
              if is_set : bool then ret (count + 1) else ret count
            else ret count)
         acc g = Ok (n, g).
Proof.
  intros Hwf. revert acc. induction l as [|c l IH]; intros acc; simpl.
  - by eexists.
  - unfold bind at 1. destruct (decide (c = cell)); [apply IH|].
    destruct (decide (in_bounds _ _ c)) as [[Hi Hj]|]; [|apply IH].
    destruct (well_formed_row g c.1 Hwf Hi) as (row & Hrow & Hlen).
    unfold bind at 1 2.
    destruct (list_get_in_range (Minesweeper.board g) c.1 g) as (row' & -> & Hrow');
      [destruct Hwf; lia|].
    assert (row' = row) as -> by congruence.
    destruct (list_get_in_range row c.2 g) as (b & -> & Hb); [lia|].
    destruct b; apply IH.
Qed.

Lemma length_filter_without {A : Type} (P : A → Prop) `{!∀ x, Decision (P x)}
    (l : list A) x :
  x ∈ l → ¬ P x → (length (filter P l) < length l)%nat.
Proof.
  intros Hx Hn. induction l as [|y l IH]; [by apply elem_of_nil in Hx|].
  apply elem_of_cons in Hx as [<-|Hx].
  - rewrite filter_cons_False by done. pose proof (length_filter P l). simpl. lia.
  - specialize (IH Hx). destruct (decide (P y)).
    + rewrite filter_cons_True by done. simpl. lia.
    + rewrite filter_cons_False by done. simpl. lia.
Qed.

(** X15. On a board of [height] rows of [width] entries, [nearby_mines]
    never raises, whatever the cell, on the board or not, and leaves the
    game as it was; the count it returns is the number of cells around
    the given cell, the cell itself excluded, that are on the board and
    hold a mine, and lies between 0 and 8. *)
Theorem nearby_mines_total (g : Minesweeper.game) (cell : Cell) :
  well_formed g →
  ∃ n, Minesweeper.nearby_mines cell g = Ok (n, g)
       ∧ n = Z.of_nat (length (filter (λ c, c ≠ cell ∧ real_mine g c) (block cell)))
       ∧ 0 ≤ n ≤ 8.
Proof.
  intros Hwf.
  assert (∃ n, Minesweeper.nearby_mines cell g = Ok (n, g)) as [n Hn].
  { unfold Minesweeper.nearby_mines, bind at 1, get.
    apply nearby_mines_returns, Hwf. }
  exists n. split; [done|].
  apply nearby_mines_count in Hn as [_ ->]. split; [done|].
  assert (length (filter (λ c, c ≠ cell ∧ real_mine g c) (block cell))
          < length (block cell))%nat as Hlt.
  { apply (length_filter_without _ _ cell); [apply elem_of_block; lia | tauto]. }
  assert (length (block cell) = 9%nat) as E by reflexivity.
  lia.
Qed.

Lemma well_formed_board_2x2 : well_formed board_2x2.
Proof.
  split; [reflexivity|]. intros row Hrow. simpl in Hrow.
  repeat (apply elem_of_cons in Hrow as [->|Hrow]; [reflexivity|]).
  by apply elem_of_nil in Hrow.
Qed.

Lemma nearby_mines_total_witness :
  well_formed board_2x2
  ∧ ∃ n, Minesweeper.nearby_mines (1, 1) board_2x2 = Ok (n, board_2x2)
         ∧ n = Z.of_nat (length (filter (λ c, c ≠ (1, 1) ∧ real_mine board_2x2 c)
                                        (block (1, 1))))
         ∧ 0 ≤ n ≤ 8.
Proof.
  assert (well_formed board_2x2) as Hwf.
  { split; [reflexivity|]. intros row Hrow. simpl in Hrow.
    repeat (apply elem_of_cons in Hrow as [->|Hrow]; [reflexivity|]).
    by apply elem_of_nil in Hrow. }
  split; [exact Hwf|].
  exact (nearby_mines_total board_2x2 (1, 1) Hwf).
Defined.

(** X16. [is_mine] does not test its argument against the size of the
    board.  On a board of [height] rows of [width] entries it returns
    the entry of a cell on the board; a row index from [-height] to [-1]
    reads the row [height] further down, and likewise for columns; any
    other row index, and any other column index in a row that exists,
    raises [IndexError]. *)
Theorem is_mine_index_behaviour (g : Minesweeper.game) (i j : Z) :
  well_formed g →
  (in_bounds (Minesweeper.height g) (Minesweeper.width g) (i, j) →
   Minesweeper.is_mine (i, j) g = Ok (mine_at g (i, j), g))
  ∧ (Minesweeper.height g ≤ i ∨ i < - Minesweeper.height g →
     Minesweeper.is_mine (i, j) g = Raise IndexError)
  ∧ (- Minesweeper.height g ≤ i < 0 →
     Minesweeper.is_mine (i, j) g
     = Minesweeper.is_mine (i + Minesweeper.height g, j) g)
  ∧ (0 ≤ i < Minesweeper.height g →
     Minesweeper.width g ≤ j ∨ j < - Minesweeper.width g →
     Minesweeper.is_mine (i, j) g = Raise IndexError)
  ∧ (0 ≤ i < Minesweeper.height g → - Minesweeper.width g ≤ j < 0 →
     Minesweeper.is_mine (i, j) g
     = Minesweeper.is_mine (i, j + Minesweeper.width g) g).
Proof.
  intros Hwf. pose proof Hwf as [Hlen Hrows].
  split; [by apply is_mine_in_bounds|].
  split; [|split; [|split]].
  - intros Hi. unfold Minesweeper.is_mine, bind, get.
    rewrite list_get_out_of_range by lia. done.
  - intros Hi. unfold Minesweeper.is_mine, bind, get.
    rewrite list_get_negative by lia. by rewrite Hlen, Z2Nat.id by lia.
  - intros Hi Hj. destruct (well_formed_row g i Hwf Hi) as (row & Hrow & Hw).
    unfold Minesweeper.is_mine, bind, get.
    destruct (list_get_in_range (Minesweeper.board g) i g) as (row' & -> & Hrow');
      [lia|].
    assert (row' = row) as -> by congruence.
    rewrite list_get_out_of_range by lia. done.
  - intros Hi Hj. destruct (well_formed_row g i Hwf Hi) as (row & Hrow & Hw).
    unfold Minesweeper.is_mine, bind, get.
    destruct (list_get_in_range (Minesweeper.board g) i g) as (row' & -> & Hrow');
      [lia|].
    assert (row' = row) as -> by congruence.
    rewrite list_get_negative by lia. by rewrite Hw, Z2Nat.id by lia.
Qed.

Lemma is_mine_index_behaviour_witness :
  well_formed board_2x2
  ∧ (in_bounds (Minesweeper.height board_2x2) (Minesweeper.width board_2x2) (0, 0) →
     Minesweeper.is_mine (0, 0) board_2x2 = Ok (mine_at board_2x2 (0, 0), board_2x2))
  ∧ (Minesweeper.height board_2x2 ≤ 0 ∨ 0 < - Minesweeper.height board_2x2 →
     Minesweeper.is_mine (0, 0) board_2x2 = Raise IndexError)
  ∧ (- Minesweeper.height board_2x2 ≤ 0 < 0 →
     Minesweeper.is_mine (0, 0) board_2x2
     = Minesweeper.is_mine (0 + Minesweeper.height board_2x2, 0) board_2x2)
  ∧ (0 ≤ 0 < Minesweeper.height board_2x2 →
     Minesweeper.width board_2x2 ≤ 0 ∨ 0 < - Minesweeper.width board_2x2 →
     Minesweeper.is_mine (0, 0) board_2x2 = Raise IndexError)
  ∧ (0 ≤ 0 < Minesweeper.height board_2x2 → - Minesweeper.width board_2x2 ≤ 0 < 0 →
     Minesweeper.is_mine (0, 0) board_2x2
     = Minesweeper.is_mine (0, 0 + Minesweeper.width board_2x2) board_2x2).
Proof.
  assert (well_formed board_2x2) as Hwf.
  { split; [reflexivity|]. intros row Hrow. simpl in Hrow.
    repeat (apply elem_of_cons in Hrow as [->|Hrow]; [reflexivity|]).
    by apply elem_of_nil in Hrow. }
  split; [exact Hwf|].
  exact (is_mine_index_behaviour board_2x2 0 0 Hwf).
Defined.

(** ** Building a board *)

Lemma foldl_append_same {A B : Type} (x : A) (acc : list A) (l : list B) :
  foldl (λ acc _, acc ++ [x]) acc l = acc ++ replicate (length l) x.
Proof.
  revert acc. induction l as [|y l IH]; intros acc; simpl.
  - by rewrite (right_id_L [] (++)).
  - rewrite IH. by rewrite <- (assoc_L (++)).
Qed.

Lemma empty_board_replicate h w :
  empty_board h w = replicate (Z.to_nat h) (replicate (Z.to_nat w) false).
Proof.
  unfold empty_board. rewrite foldl_append_same. cbn [app].
  by rewrite foldl_append_same, !length_seqZ.
Qed.

Lemma randrange_Some n r i : randrange n r = Some i → 0 ≤ i < n.
Proof.
  unfold randrange. destruct (decide (0 < n)); [|done].
  intros [= <-]. by apply Z.mod_pos_bound.
Qed.

Lemma randrange_None n r : randrange n r = None ↔ n ≤ 0.
Proof. unfold randrange. destruct (decide (0 < n)); split; (done || lia). Qed.

Lemma consistent_empty h w :
  consistent {| Minesweeper.height := h; Minesweeper.width := w;
                Minesweeper.mines := ∅;
                Minesweeper.board := empty_board h w;
                Minesweeper.mines_found := ∅ |}.
Proof.
  rewrite empty_board_replicate. split; [split|]; simpl.
  - by rewrite length_replicate.
  - intros row [-> _]%elem_of_replicate. by rewrite length_replicate.
  - intros c. split; [set_solver|]. intros [_ Hm]. unfold mine_at in Hm.
    simpl in Hm.
    destruct (replicate _ _ !! Z.to_nat c.1) as [row|] eqn:E1; [|done].
    apply lookup_replicate in E1 as [-> _].
    destruct (replicate _ _ !! Z.to_nat c.2) as [b|] eqn:E2; [|done].
    apply lookup_replicate in E2 as [-> _]. done.
Qed.

(** The entries of the board after [self.board[i][j] = True]. *)
Lemma mine_at_place g i j row c :
  0 ≤ i → 0 ≤ j → 0 ≤ c.1 → 0 ≤ c.2 →
  Minesweeper.board g !! Z.to_nat i = Some row →
  (Z.to_nat j < length row)%nat →
  mine_at
    {| Minesweeper.height := Minesweeper.height g;
       Minesweeper.width := Minesweeper.width g;
       Minesweeper.mines := Minesweeper.mines g ∪ {[(i, j)]};
       Minesweeper.board :=
         <[Z.to_nat i := <[Z.to_nat j := true]> row]> (Minesweeper.board g);
       Minesweeper.mines_found := Minesweeper.mines_found g |} c
  = if decide (c = (i, j)) then true else mine_at g c.
Proof.
  intros Hi Hj Hc1 Hc2 Hrow Hlt. unfold mine_at. simpl.
  pose proof (lookup_lt_Some _ _ _ Hrow) as Hlti.
  destruct (decide (c = (i, j))) as [->|Hne]; simpl.
  - rewrite list_lookup_insert_eq by done. by rewrite list_lookup_insert_eq.
  - destruct (decide (Z.to_nat c.1 = Z.to_nat i)) as [E|N].
    + rewrite E, list_lookup_insert_eq, Hrow by done.
      rewrite list_lookup_insert_ne; [done|]. intros E2. apply Hne.
      destruct c as [c1 c2]. simpl in *. f_equal; lia.
    + by rewrite list_lookup_insert_ne by done.
Qed.

(** The game after [self.mines.add((i, j))] and
    [self.board[i][j] = True]. *)
Lemma consistent_place g i j row :
  consistent g →
  0 ≤ i → 0 ≤ j < Minesweeper.width g →
  Minesweeper.board g !! Z.to_nat i = Some row →
  consistent
    {| Minesweeper.height := Minesweeper.height g;
       Minesweeper.width := Minesweeper.width g;
       Minesweeper.mines := Minesweeper.mines g ∪ {[(i, j)]};
       Minesweeper.board :=
         <[Z.to_nat i := <[Z.to_nat j := true]> row]> (Minesweeper.board g);
       Minesweeper.mines_found := Minesweeper.mines_found g |}.
Proof.
  intros [[Hlen Hrows] Hm] Hi Hj Hrow.
  assert (length row = Z.to_nat (Minesweeper.width g)) as Hw
    by (apply Hrows; by eapply list_elem_of_lookup_2).
  pose proof (lookup_lt_Some _ _ _ Hrow) as Hlt.
  assert (in_bounds (Minesweeper.height g) (Minesweeper.width g) (i, j)) as Hij
    by (unfold in_bounds; simpl; lia).
  split; [split|].
  - simpl. by rewrite length_insert.
  - simpl. intros row' [k Hk]%list_elem_of_lookup_1.
    destruct (decide (k = Z.to_nat i)) as [->|Hne].
    + rewrite list_lookup_insert_eq in Hk by done. injection Hk as <-.
      by rewrite length_insert.
    + rewrite list_lookup_insert_ne in Hk by done.
      apply Hrows. by eapply list_elem_of_lookup_2.
  - intros c. unfold real_mine at 1. cbn [Minesweeper.mines Minesweeper.height
      Minesweeper.width]. rewrite elem_of_union, elem_of_singleton, Hm. split.
    + intros [[Hb Hv]|Hc].
      * split; [done|]. rewrite (mine_at_place g i j row c);
          [|lia|lia|apply Hb|apply Hb|done|lia].
        by destruct (decide _).
      * subst c. split; [done|]. rewrite (mine_at_place g i j row (i, j));
          [|simpl; lia..|done|lia]. by rewrite decide_True.
    + intros [Hb Hv]. rewrite (mine_at_place g i j row c) in Hv;
        [|lia|lia|apply Hb|apply Hb|done|lia].
      destruct (decide (c = (i, j))); [by right | by left].
Qed.

(** What the [while] loop of the constructor comes to, from a game
    whose board and [mines] agree. *)
Lemma place_mines_outcome m draws self :
  consistent self →
  match place_mines m draws self with
  | Built g =>
      (Minesweeper.height g = Minesweeper.height self
       ∧ Minesweeper.width g = Minesweeper.width self)
      ∧ Minesweeper.mines_found g = Minesweeper.mines_found self
      ∧ consistent g
      ∧ Z.of_nat (size (Minesweeper.mines g)) = m
  | RaisedValueError =>
      (Minesweeper.height self ≤ 0 ∨ Minesweeper.width self ≤ 0)
      ∧ Z.of_nat (size (Minesweeper.mines self)) ≠ m ∧ draws ≠ []
  | RaisedIndexError => False
  | NeedsDraws => True
  end.
Proof.
  revert self. induction draws as [|[r1 r2] draws IH]; intros self Hself; simpl.
  - destruct (decide _); done.
  - destruct (decide _) as [|Hsz]; [done|].
    destruct (randrange (Minesweeper.height self) r1) as [i|] eqn:Ei;
      [|apply randrange_None in Ei; split; [by left | done]].
    destruct (randrange (Minesweeper.width self) r2) as [j|] eqn:Ej;
      [|apply randrange_None in Ej; split; [by right | done]].
    apply randrange_Some in Ei, Ej.
    destruct (well_formed_row self i (proj1 Hself) Ei) as (row & Hrow & Hw).
    unfold bind at 1.
    destruct (list_get_in_range (Minesweeper.board self) i tt) as (row' & -> & Hrow');
      [destruct Hself as [[? _] _]; lia|].
    assert (row' = row) as -> by congruence.
    unfold bind at 1.
    destruct (list_get_in_range row j tt) as (b & -> & Hb); [lia|].
    unfold ret. destruct b.
    + specialize (IH self Hself).
      destruct (place_mines m draws self); [done| |done..].
      destruct IH as ([?|?] & _); lia.
    + specialize (IH _ (consistent_place self i j row Hself (proj1 Ei) Ej Hrow)).
      destruct (place_mines m draws _); [done| |done..].
      simpl in IH. destruct IH as ([?|?] & _); lia.
Qed.

Lemma place_mines_done m draws self :
  Z.of_nat (size (Minesweeper.mines self)) = m →
  place_mines m draws self = Built self.
Proof. intros Hm. destruct draws as [|[r1 r2] draws]; simpl; by rewrite decide_True. Qed.

Lemma place_mines_empty_range m r draws self :
  Z.of_nat (size (Minesweeper.mines self)) ≠ m →
  Minesweeper.height self ≤ 0 ∨ Minesweeper.width self ≤ 0 →
  place_mines m (r :: draws) self = RaisedValueError.
Proof.
  intros Hm Hd. destruct r as [r1 r2]. simpl. rewrite decide_False by done.
  destruct (randrange (Minesweeper.height self) r1) as [i|] eqn:Ei; [|done].
  apply randrange_Some in Ei.
  destruct (randrange (Minesweeper.width self) r2) as [j|] eqn:Ej; [|done].
  apply randrange_Some in Ej. lia.
Qed.

(** X17. When the constructor returns, the game has the size asked
    for, no mine found, a board of [height] rows of [width] entries, and
    a set [mines] that holds exactly the cells whose entry of the board
    is [True]; the number of mines is the number asked for, which is
    therefore between 0 and the number of cells. *)
Theorem Minesweeper_init_built (height width mines : Z)
    (draws : list (nat * nat)) (g : Minesweeper.game) :
  Minesweeper_init height width mines draws = Built g →
  (Minesweeper.height g = height ∧ Minesweeper.width g = width)
  ∧ Minesweeper.mines_found g = ∅
  ∧ well_formed g
  ∧ (∀ c, c ∈ Minesweeper.mines g ↔ real_mine g c)
  ∧ Z.of_nat (size (Minesweeper.mines g)) = mines
  ∧ 0 ≤ mines ≤ Z.of_nat (Z.to_nat height * Z.to_nat width).
Proof.
  unfold Minesweeper_init. intros Hrun.
  pose proof (place_mines_outcome mines draws _ (consistent_empty height width))
    as Hout.
  rewrite Hrun in Hout. simpl in Hout.
  destruct Hout as ([Hh Hw] & Hf & [Hwf Hm] & Hsz).
  split; [done|]. split; [done|]. split; [done|]. split; [done|].
  split; [done|]. rewrite <- Hsz, <- Hh, <- Hw.
  assert (size (Minesweeper.mines g)
          ≤ Z.to_nat (Minesweeper.height g) * Z.to_nat (Minesweeper.width g))%nat.
  { apply size_on_board. intros c Hc. by apply Hm in Hc as [Hb _]. }
  lia.
Qed.

Lemma Minesweeper_init_built_witness :
  Minesweeper_init 2 2 1 [(0, 0)%nat] = Built board_2x2
  ∧ (Minesweeper.height board_2x2 = 2 ∧ Minesweeper.width board_2x2 = 2)
  ∧ Minesweeper.mines_found board_2x2 = ∅
  ∧ well_formed board_2x2
  ∧ (∀ c, c ∈ Minesweeper.mines board_2x2 ↔ real_mine board_2x2 c)
  ∧ Z.of_nat (size (Minesweeper.mines board_2x2)) = 1
  ∧ 0 ≤ 1 ≤ Z.of_nat (Z.to_nat 2 * Z.to_nat 2).
Proof.
  assert (Minesweeper_init 2 2 1 [(0, 0)%nat] = Built board_2x2) as Hrun
    by (vm_compute; reflexivity).
  split; [exact Hrun|].
  exact (Minesweeper_init_built 2 2 1 [(0, 0)%nat] board_2x2 Hrun).
Defined.

(** X18. The constructor never indexes the board outside it.  It
    raises [ValueError], from [random.randrange], exactly when a mine is
    asked for (or a negative number of mines) on a board without rows or
    without columns; and when no mine is asked for it returns at once
    with the board of the size given, whatever that size. *)
Theorem Minesweeper_init_errors (height width mines : Z)
    (draws : list (nat * nat)) :
  Minesweeper_init height width mines draws ≠ RaisedIndexError
  ∧ (Minesweeper_init height width mines draws = RaisedValueError ↔
     mines ≠ 0 ∧ draws ≠ [] ∧ (height ≤ 0 ∨ width ≤ 0))
  ∧ Minesweeper_init height width 0 draws
    = Built {| Minesweeper.height := height; Minesweeper.width := width;
               Minesweeper.mines := ∅;
               Minesweeper.board :=
                 replicate (Z.to_nat height) (replicate (Z.to_nat width) false);
               Minesweeper.mines_found := ∅ |}.
Proof.
  unfold Minesweeper_init.
  pose proof (place_mines_outcome mines draws _ (consistent_empty height width))
    as Hout.
  split; [|split].
  - intros E. by rewrite E in Hout.
  - split.
    + intros E. rewrite E in Hout.
      cbn [Minesweeper.mines Minesweeper.height Minesweeper.width] in Hout.
      destruct Hout as (Hd & Hsz & Hne). rewrite size_empty in Hsz.
      split; [lia|]. done.
    + intros (Hm & Hne & Hd). destruct draws as [|r draws]; [done|].
      apply place_mines_empty_range; [|exact Hd].
      cbn [Minesweeper.mines]. rewrite size_empty. lia.
  - rewrite <- empty_board_replicate. apply place_mines_done.
    cbn [Minesweeper.mines]. by rewrite size_empty.
Qed.

(** X19. Asked for a negative number of mines, or for more mines than
    the board has cells, the constructor does not return, whatever the
    draws: its loop is still running when the draws are used up, unless
    [random.randrange] has raised [ValueError]. *)
Theorem Minesweeper_init_never_built (height width mines : Z)
    (draws : list (nat * nat)) :
  mines < 0 ∨ Z.of_nat (Z.to_nat height * Z.to_nat width) < mines →
  Minesweeper_init height width mines draws = NeedsDraws
  ∨ Minesweeper_init height width mines draws = RaisedValueError.
Proof.
  intros Hm. unfold Minesweeper_init.
  pose proof (place_mines_outcome mines draws _ (consistent_empty height width))
    as Hout.
  destruct (place_mines mines draws _) as [g| | |] eqn:E;
    [exfalso|by right|done|by left].
  cbn [Minesweeper.height Minesweeper.width Minesweeper.mines_found] in Hout.
  destruct Hout as ([Hh Hw] & _ & [_ Hg] & Hsz).
  assert (size (Minesweeper.mines g)
          ≤ Z.to_nat (Minesweeper.height g) * Z.to_nat (Minesweeper.width g))%nat.
  { apply size_on_board. intros c Hc. by apply Hg in Hc as [Hb _]. }
  rewrite Hh, Hw in *. lia.
Qed.

Lemma Minesweeper_init_never_built_witness :
  (5 < 0 ∨ Z.of_nat (Z.to_nat 2 * Z.to_nat 2) < 5)
  ∧ (Minesweeper_init 2 2 5 [(0, 0)%nat; (1, 1)%nat] = NeedsDraws
     ∨ Minesweeper_init 2 2 5 [(0, 0)%nat; (1, 1)%nat] = RaisedValueError).
Proof.
  assert (5 < 0 ∨ Z.of_nat (Z.to_nat 2 * Z.to_nat 2) < 5) as Hm
    by (right; vm_compute; reflexivity).
  split; [exact Hm|].
  exact (Minesweeper_init_never_built 2 2 5 [(0, 0)%nat; (1, 1)%nat] Hm).
Defined.

(** X20. Right after the constructor has returned, [won] returns [True]
    exactly when no mine was asked for; it never raises and leaves the
    game as it was. *)
Theorem won_after_init (height width mines : Z) (draws : list (nat * nat))
    (g : Minesweeper.game) :
  Minesweeper_init height width mines draws = Built g →
  Minesweeper_won g = Ok (bool_decide (mines = 0), g).
Proof.
  unfold Minesweeper_init. intros Hrun.
  pose proof (place_mines_outcome mines draws _ (consistent_empty height width))
    as Hout.
  rewrite Hrun in Hout.
  cbn [Minesweeper.height Minesweeper.width Minesweeper.mines_found] in Hout.
  destruct Hout as (_ & Hf & _ & Hsz).
  unfold Minesweeper_won, bind, get, ret. do 2 f_equal. rewrite Hf.
  apply bool_decide_ext. split.
  - intros He. rewrite <- He, size_empty in Hsz. lia.
  - intros ->. assert (size (Minesweeper.mines g) = 0%nat) as H0 by lia.
    apply size_empty_inv in H0. apply leibniz_equiv in H0. by rewrite H0.
Qed.

Lemma won_after_init_witness :
  Minesweeper_init 2 2 1 [(0, 0)%nat] = Built board_2x2
  ∧ Minesweeper_won board_2x2 = Ok (bool_decide (1 = 0), board_2x2).
Proof.
  assert (Minesweeper_init 2 2 1 [(0, 0)%nat] = Built board_2x2) as Hrun
    by (vm_compute; reflexivity).
  split; [exact Hrun|].
  exact (won_after_init 2 2 1 [(0, 0)%nat] board_2x2 Hrun).
Defined.
